(** * gamma.c: DRM GAMMA_LUT setter with presets, [--list] and [reset]

    A shallow embedding of [gamma.c] and the proofs of its specification.

    - [IEEE]: C [double] as IEEE-754 binary64 (the executable
      specification of the standard library), with the rounding facts the
      table synthesis relies on.
    - [Text]: the C string helpers ([s_trim], [strpbrk], [fgets]).
    - [Ini]: the three scanners of the preset files.
    - [Cli]: [main], as a function from the command line, the files and the
      display driver to an exit code and a trace of what was printed and
      what was asked from the hardware.
    - [Lut]: the loop of [set_gamma_lut] that fills the table. *)

From Stdlib Require Import ZArith Lia Bool List String Ascii.
From Stdlib Require Import Floats.SpecFloat.
From Stdlib Require Import Reals Lra.
Import ListNotations.

Local Open Scope Z_scope.

(* ================================================================== *)
(** * IEEE-754 binary64 *)
(* ================================================================== *)

Module IEEE.

(** [double] on the targets of the program is binary64: 53 bits of
    precision, infinities at exponent 1024. *)
Definition prec : Z := 53.
Definition emax : Z := 1024.

Definition double : Type := spec_float.

Definition dadd : double -> double -> double := SFadd prec emax.
Definition dmul : double -> double -> double := SFmul prec emax.
Definition ddiv : double -> double -> double := SFdiv prec emax.

(** C comparison operators: false as soon as an operand is NaN. *)
Definition dlt : double -> double -> bool := SFltb.
Definition dle : double -> double -> bool := SFleb.
Definition dgt (x y : double) : bool := SFltb y x.
Definition dge (x y : double) : bool := SFleb y x.

(** Conversion of an integer to [double] (round to nearest even). *)
Definition d_of_Z (z : Z) : double := binary_normalize prec emax z 0 false.

Definition is_nan (x : double) : bool :=
  match x with S754_nan => true | _ => false end.

(** [isfinite] *)
Definition is_finite (x : double) : bool :=
  match x with S754_zero _ | S754_finite _ _ _ => true | _ => false end.

(** [fmax] and [fmin] (C11 7.12.12): a NaN argument is treated as missing
    data, the other argument is returned. *)
Definition fmax (x y : double) : double :=
  if dge x y || is_nan y then x else y.
Definition fmin (x y : double) : double :=
  if dle x y || is_nan y then x else y.

(** Conversion of a [double] to an integer type truncates toward zero
    (C11 6.3.1.4); [None] where the value has no integral part (NaN,
    infinities).  The caller checks the range of the target type. *)
Definition trunc (x : double) : option Z :=
  match x with
  | S754_zero _ => Some 0
  | S754_finite s m e =>
      let a := match e with
               | Zneg p => Z.shiftr (Zpos m) (Zpos p)
               | _ => Z.shiftl (Zpos m) e
               end in
      Some (if s then - a else a)
  | _ => None
  end.

(** [(uint16_t)x]: undefined when the truncated value is not
    representable in 16 bits. *)
Definition to_uint16 (x : double) : option Z :=
  match trunc x with
  | Some z => if (0 <=? z) && (z <=? 65535) then Some z else None
  | None => None
  end.

(** The literals of the program. *)
Definition d0 : double := S754_zero false.
Definition d1 : double := d_of_Z 1.
Definition d_half : double := ddiv (d_of_Z 1) (d_of_Z 2).
Definition d65535 : double := d_of_Z 65535.

End IEEE.

(* ================================================================== *)
(** * C strings *)
(* ================================================================== *)

Module Text.

Local Open Scope string_scope.
Local Open Scope char_scope.

Definition NUL : ascii := "000".
Definition TAB : ascii := "009".
Definition LF : ascii := "010".
Definition CR : ascii := "013".

(** What the string functions of C see of a buffer: the bytes before the
    first NUL. *)
Fixpoint c_str (s : string) : string :=
  match s with
  | EmptyString => EmptyString
  | String c s' => if Ascii.eqb c NUL then EmptyString else String c (c_str s')
  end.

(** [char *sc = strpbrk(line, "#;"); if (sc) *sc = '\0';] *)
Fixpoint strip_comment (s : string) : string :=
  match s with
  | EmptyString => EmptyString
  | String c s' =>
      if Ascii.eqb c "#" || Ascii.eqb c ";" then EmptyString
      else String c (strip_comment s')
  end.

(** The characters [s_trim] removes. *)
Definition is_blank (c : ascii) : bool :=
  Ascii.eqb c " " || Ascii.eqb c TAB || Ascii.eqb c CR || Ascii.eqb c LF.

Fixpoint ltrim (s : string) : string :=
  match s with
  | EmptyString => EmptyString
  | String c s' => if is_blank c then ltrim s' else s
  end.

(** Right trim: a blank is dropped when everything after it is dropped. *)
Fixpoint rtrim (s : string) : string :=
  match s with
  | EmptyString => EmptyString
  | String c s' =>
      match rtrim s' with
      | EmptyString => if is_blank c then EmptyString else String c EmptyString
      | t => String c t
      end
  end.

(** The UTF-8 byte-order mark EF BB BF. *)
Definition strip_bom (s : string) : string :=
  match s with
  | String a (String b (String c s')) =>
      if Ascii.eqb a "239" && Ascii.eqb b "187" && Ascii.eqb c "191"
      then s' else s
  | _ => s
  end.

(** [s_trim]: left trim, right trim, then the byte-order mark. *)
Definition s_trim (s : string) : string := strip_bom (rtrim (ltrim s)).

(** [strchr(s, c)]: the text before the first [c] and the text after it. *)
Fixpoint split_at (c : ascii) (s : string) : option (string * string) :=
  match s with
  | EmptyString => None
  | String a s' =>
      if Ascii.eqb a c then Some (EmptyString, s')
      else match split_at c s' with
           | Some (l, r) => Some (String a l, r)
           | None => None
           end
  end.

(** [strnlen] followed by [memcpy]: at most [n] characters. *)
Fixpoint take (n : nat) (s : string) : string :=
  match n, s with
  | S n', String c s' => String c (take n' s')
  | _, _ => EmptyString
  end.

(** The lines [fgets(line, sizeof line, f)] hands out for a [room]-byte
    buffer: a line ends after a newline, or when [room - 1] characters are
    in (the rest of a long line comes back as the next line).  [room] is
    the room left in the buffer, [size] the size of the buffer. *)
Fixpoint fgets_from (size room : nat) (s : string) : list string :=
  match s with
  | EmptyString => []
  | String c s' =>
      if Ascii.eqb c LF || (room <=? 2)%nat
      then String c EmptyString :: fgets_from size size s'
      else match fgets_from size (room - 1) s' with
           | [] => [String c EmptyString]
           | l :: ls => String c l :: ls
           end
  end.

Definition fgets_lines (size : nat) (s : string) : list string :=
  fgets_from size size s.


(** ** Vocabulary for the properties of these helpers *)

(** Every character of the string passes the test. *)
Fixpoint all_chars (P : ascii -> bool) (s : string) : bool :=
  match s with
  | EmptyString => true
  | String c s' => P c && all_chars P s'
  end.






(** Neither a comment character nor a NUL. *)
Definition is_plain (c : ascii) : bool :=
  negb (Ascii.eqb c "#") && negb (Ascii.eqb c ";") && negb (Ascii.eqb c NUL).

End Text.

(* ================================================================== *)
(** * The C library and the outside world *)
(* ================================================================== *)

Module Env.

Import IEEE.

(** The result of [strtod(s, &end)] or [strtoul(s, &end, 0)]: the value,
    the offset of [end] in [s], and whether [errno] was set. *)
Record conv (A : Type) : Type :=
  { conv_value : A; conv_end : nat; conv_errno : bool }.
Arguments conv_value {A}.
Arguments conv_end {A}.
Arguments conv_errno {A}.

(** The functions the program takes from libc and libm. *)
Record libc : Type :=
  { strtod : string -> conv double;
    strtoul : string -> conv Z;
    pow : double -> double -> double }.

(** The files the program may open: the content of each readable path. *)
Definition files : Type := string -> option string.

(** One entry of the table, [struct drm_color_lut] (the reserved field
    stays zero). *)
Record drm_color_lut : Type :=
  { red : Z; green : Z; blue : Z }.

(** The display driver, as far as the program looks at it. *)
Record drm : Type :=
  { (** some [/dev/dri/cardN] opens *)
    drm_open : bool;
    (** [drmModeObjectGetProperties] on a CRTC: the id of its [GAMMA_LUT]
        property (0 when absent) and the value of [GAMMA_LUT_SIZE] (256
        when absent); [None] when the call fails *)
    drm_props : Z -> option (Z * Z);
    (** [calloc] of the table succeeds *)
    drm_calloc : bool;
    (** blob creation and atomic commit of a table for a CRTC: the
        return code, 0 for success *)
    drm_commit : Z -> list drm_color_lut -> Z }.

(** What the program prints on [stdout]. *)
Inductive out_line : Type :=
| OutAvailable (path : string)      (* "Available presets in %s:" *)
| OutName (name : string)           (* "  %s" *)
| OutNoPresetsIn (path : string)    (* "No presets found in %s." *)
| OutNoPresetsIni.                  (* "No presets.ini found." *)

(** What the program prints on [stderr]. *)
Inductive err_line : Type :=
| ErrUsage
| ErrInvalid (label text : string)              (* "Invalid %s: '%s'" *)
| ErrRange (label : string) (v lo hi : double)  (* "%s out of range: ..." *)
| ErrCrtcPreset (text : string)     (* "Invalid crtc in preset: '%s'" *)
| ErrCrtcConfig (text : string)     (* "Invalid crtc in config: '%s'" *)
| ErrCrtcNeedsArg
| ErrCrtcOption (text : string)     (* "Invalid --crtc value: %s" *)
| ErrPresetsNeedsArg
| ErrUnknownOption (text : string)
| ErrListPositional
| ErrMissingArgs
| ErrArity (remaining : Z)
| ErrExtraArgs
| ErrNotFound (preset : string)
| ErrParsing (preset : string)
| ErrLacksGamma (preset : string)
| ErrNoLut (crtc : Z)
| ErrPerror (what : string)
| ErrSetFailed (ret : Z).

(** The trace of a run. *)
Inductive event : Type :=
| Out (l : out_line)
| Err (l : err_line)
| HwOpen                                         (* open("/dev/dri/cardN") *)
| HwProps (crtc : Z)                             (* property query *)
| HwCommit (crtc : Z) (lut : list drm_color_lut).

Definition is_hw (e : event) : bool :=
  match e with
  | HwOpen | HwProps _ | HwCommit _ _ => true
  | _ => false
  end.

Definition out_names (tr : list event) : list string :=
  flat_map (fun e => match e with Out (OutName n) => [n] | _ => [] end) tr.

(** Nothing but lines on [stderr]. *)
Definition only_stderr (tr : list event) : Prop :=
  Forall (fun e => exists l, e = Err l) tr.

(** No request to the driver. *)
Definition no_hardware (tr : list event) : Prop :=
  Forall (fun e => is_hw e = false) tr.

End Env.

(* ================================================================== *)
(** * Number parsing and the preset files *)
(* ================================================================== *)

Module Ini.

Import IEEE Text Env.
Local Open Scope string_scope.
Local Open Scope Z_scope.

(** Safe bounds to avoid black/white screens. *)
Definition GAMMA_MIN : double := ddiv (d_of_Z 1) (d_of_Z 5).   (* 0.20 *)
Definition GAMMA_MAX : double := d_of_Z 5.                     (* 5.00 *)
Definition LIFT_MIN : double := SFopp d_half.                  (* -0.50 *)
Definition LIFT_MAX : double := d_half.                        (* 0.50 *)
Definition GAIN_MIN : double := d_half.                        (* 0.50 *)
Definition GAIN_MAX : double := ddiv (d_of_Z 3) (d_of_Z 2).    (* 1.50 *)
Definition MULT_MIN : double := d_half.
Definition MULT_MAX : double := ddiv (d_of_Z 3) (d_of_Z 2).

Section WithLibc.

Variable C : libc.

Definition parse_uint32 (s : string) : option Z :=
  let r := strtoul C s in
  if conv_errno r || (conv_end r =? 0)%nat
     || (conv_end r <? String.length s)%nat
  then None
  else Some (conv_value r mod 2 ^ 32).

Definition parse_double_strict (s : string) : option double :=
  let r := strtod C s in
  if conv_errno r || (conv_end r =? 0)%nat
     || (conv_end r <? String.length s)%nat
  then None
  else if negb (is_finite (conv_value r)) then None
  else Some (conv_value r).

Definition parse_double_in_range (label s : string) (minv maxv : double)
  : option double * list event :=
  match parse_double_strict s with
  | None => (None, [Err (ErrInvalid label s)])
  | Some v =>
      if dlt v minv || dgt v maxv
      then (None, [Err (ErrRange label v minv maxv)])
      else (Some v, [])
  end.

(** [struct preset_vals] *)
Record preset_vals : Type :=
  { have_gamma : bool; have_lift : bool; have_gain : bool;
    have_r : bool; have_g : bool; have_b : bool;
    gamma : double; lift : double; gain : double;
    r : double; g : double; b : double;
    have_crtc : bool; crtc : Z }.

(** [memset(pv, 0, sizeof *pv)] *)
Definition pv_zero : preset_vals :=
  {| have_gamma := false; have_lift := false; have_gain := false;
     have_r := false; have_g := false; have_b := false;
     gamma := d0; lift := d0; gain := d0; r := d0; g := d0; b := d0;
     have_crtc := false; crtc := 0 |}.

(** The six real-valued keys, with their label and range. *)
Inductive field : Type := FGamma | FLift | FGain | FR | FG | FB.

Definition field_label (f : field) : string :=
  match f with
  | FGamma => "gamma" | FLift => "lift" | FGain => "gain"
  | FR => "r" | FG => "g" | FB => "b"
  end.

Definition field_min (f : field) : double :=
  match f with
  | FGamma => GAMMA_MIN | FLift => LIFT_MIN | FGain => GAIN_MIN
  | _ => MULT_MIN
  end.

Definition field_max (f : field) : double :=
  match f with
  | FGamma => GAMMA_MAX | FLift => LIFT_MAX | FGain => GAIN_MAX
  | _ => MULT_MAX
  end.

Definition field_of_key (key : string) : option field :=
  if String.eqb key "gamma" then Some FGamma
  else if String.eqb key "lift" then Some FLift
  else if String.eqb key "gain" then Some FGain
  else if String.eqb key "r" then Some FR
  else if String.eqb key "g" then Some FG
  else if String.eqb key "b" then Some FB
  else None.

(** [pv->f = v; pv->have_f = true;] *)
Definition set_field (f : field) (v : double) (pv : preset_vals)
  : preset_vals :=
  match f with
  | FGamma =>
      {| have_gamma := true; have_lift := have_lift pv;
         have_gain := have_gain pv; have_r := have_r pv;
         have_g := have_g pv; have_b := have_b pv;
         gamma := v; lift := lift pv; gain := gain pv;
         r := r pv; g := g pv; b := b pv;
         have_crtc := have_crtc pv; crtc := crtc pv |}
  | FLift =>
      {| have_gamma := have_gamma pv; have_lift := true;
         have_gain := have_gain pv; have_r := have_r pv;
         have_g := have_g pv; have_b := have_b pv;
         gamma := gamma pv; lift := v; gain := gain pv;
         r := r pv; g := g pv; b := b pv;
         have_crtc := have_crtc pv; crtc := crtc pv |}
  | FGain =>
      {| have_gamma := have_gamma pv; have_lift := have_lift pv;
         have_gain := true; have_r := have_r pv;
         have_g := have_g pv; have_b := have_b pv;
         gamma := gamma pv; lift := lift pv; gain := v;
         r := r pv; g := g pv; b := b pv;
         have_crtc := have_crtc pv; crtc := crtc pv |}
  | FR =>
      {| have_gamma := have_gamma pv; have_lift := have_lift pv;
         have_gain := have_gain pv; have_r := true;
         have_g := have_g pv; have_b := have_b pv;
         gamma := gamma pv; lift := lift pv; gain := gain pv;
         r := v; g := g pv; b := b pv;
         have_crtc := have_crtc pv; crtc := crtc pv |}
  | FG =>
      {| have_gamma := have_gamma pv; have_lift := have_lift pv;
         have_gain := have_gain pv; have_r := have_r pv;
         have_g := true; have_b := have_b pv;
         gamma := gamma pv; lift := lift pv; gain := gain pv;
         r := r pv; g := v; b := b pv;
         have_crtc := have_crtc pv; crtc := crtc pv |}
  | FB =>
      {| have_gamma := have_gamma pv; have_lift := have_lift pv;
         have_gain := have_gain pv; have_r := have_r pv;
         have_g := have_g pv; have_b := true;
         gamma := gamma pv; lift := lift pv; gain := gain pv;
         r := r pv; g := g pv; b := v;
         have_crtc := have_crtc pv; crtc := crtc pv |}
  end.

(** [pv->crtc = v; pv->have_crtc = true;] *)
Definition set_crtc (v : Z) (pv : preset_vals) : preset_vals :=
  {| have_gamma := have_gamma pv; have_lift := have_lift pv;
     have_gain := have_gain pv; have_r := have_r pv;
     have_g := have_g pv; have_b := have_b pv;
     gamma := gamma pv; lift := lift pv; gain := gain pv;
     r := r pv; g := g pv; b := b pv;
     have_crtc := true; crtc := v |}.

(** ** The lines of a file *)

(** The head of all three loops: cut the comment, trim. *)
Definition clean (raw : string) : string :=
  s_trim (strip_comment (c_str raw)).

Inductive line_kind : Type :=
| Blank                       (* nothing left *)
| Header (name : string)      (* [name] *)
| Unclosed                    (* a '[' with no ']' after it *)
| Body (text : string).       (* anything else *)

(** The section name is cut to the 255 characters that fit the buffer,
    then trimmed. *)
Definition classify (raw : string) : line_kind :=
  match clean raw with
  | EmptyString => Blank
  | String c rest as l =>
      if Ascii.eqb c "["
      then match split_at "]" rest with
           | Some (name, _) => Header (s_trim (take 255 name))
           | None => Unclosed
           end
      else Body l
  end.

(** [key = value]: split at the first '=', trim both sides. *)
Definition key_value (l : string) : option (string * string) :=
  match split_at "=" l with
  | Some (k, v) => Some (s_trim k, s_trim v)
  | None => None
  end.

Definition file_lines (content : string) : list string :=
  fgets_lines 512 content.

(** ** [load_preset_from_file] *)

(** The loop over the lines, with the state it carries: [wanted], [status]
    and the preset being filled.  A value that does not parse ends the
    loop with status -1. *)
Fixpoint scan_preset (want : string) (ls : list string) (wanted : bool)
    (status : Z) (pv : preset_vals) : Z * preset_vals * list event :=
  match ls with
  | [] => (status, pv, [])
  | raw :: ls' =>
      match classify raw with
      | Blank | Unclosed => scan_preset want ls' wanted status pv
      | Header name => scan_preset want ls' (String.eqb name want) status pv
      | Body l =>
          if negb wanted then scan_preset want ls' wanted status pv
          else
            match key_value l with
            | None => scan_preset want ls' wanted status pv
            | Some (key, val) =>
                match field_of_key key with
                | Some f =>
                    match parse_double_in_range (field_label f) val
                            (field_min f) (field_max f) with
                    | (Some d, _) =>
                        scan_preset want ls' wanted 1 (set_field f d pv)
                    | (None, ev) => (-1, pv, ev)
                    end
                | None =>
                    if String.eqb key "crtc"
                    then match parse_uint32 val with
                         | Some u =>
                             scan_preset want ls' wanted 1 (set_crtc u pv)
                         | None => (-1, pv, [Err (ErrCrtcPreset val)])
                         end
                    else (* ignore unknown keys *)
                      scan_preset want ls' wanted status pv
                end
            end
      end
  end.

(** return: 1=loaded, 0=not found, -1=parse error *)
Definition load_preset_from_file (fs : files) (path want : string)
    (pv : preset_vals) : Z * preset_vals * list event :=
  match fs path with
  | None => (0, pv, [])
  | Some content => scan_preset want (file_lines content) false 0 pv
  end.

(** ** [load_config_crtc_from_file] *)

(** The loop stops at the first [crtc] key of a [config] section. *)
Fixpoint scan_config (ls : list string) (in_config : bool)
  : Z * option Z * list event :=
  match ls with
  | [] => (0, None, [])
  | raw :: ls' =>
      match classify raw with
      | Blank | Unclosed => scan_config ls' in_config
      | Header name => scan_config ls' (String.eqb name "config")
      | Body l =>
          if negb in_config then scan_config ls' in_config
          else
            match key_value l with
            | None => scan_config ls' in_config
            | Some (key, val) =>
                if String.eqb key "crtc"
                then match parse_uint32 val with
                     | Some u => (1, Some u, [])
                     | None => (-1, None, [Err (ErrCrtcConfig val)])
                     end
                else scan_config ls' in_config
            end
      end
  end.

(** return: 1=loaded, 0=not found, -1=parse error; the second component
    is what was stored in [*out_crtc], if anything. *)
Definition load_config_crtc_from_file (fs : files) (path : string)
  : Z * option Z * list event :=
  match fs path with
  | None => (0, None, [])
  | Some content => scan_config (file_lines content) false
  end.

Definition local_ini : string := "./presets.ini".
Definition system_ini : string := "/etc/gamma-presets.ini".

Definition load_config_crtc (fs : files) (preset_path : option string)
  : Z * option Z * list event :=
  match preset_path with
  | Some p => load_config_crtc_from_file fs p
  | None =>
      let '(st, c, ev) := load_config_crtc_from_file fs local_ini in
      if negb (Z.eqb st 0) then (st, c, ev)
      else
        let '(st2, c2, ev2) := load_config_crtc_from_file fs system_ini in
        (st2, c2, (ev ++ ev2)%list)
  end.

(** ** [load_preset] *)

(** Built-in preset: "reset" -> gamma=1, lift=0, gain=1, r=g=b=1 *)
Definition pv_reset : preset_vals :=
  {| have_gamma := true; have_lift := true; have_gain := true;
     have_r := true; have_g := true; have_b := true;
     gamma := d1; lift := d0; gain := d1; r := d1; g := d1; b := d1;
     have_crtc := false; crtc := 0 |}.

Definition load_preset (fs : files) (name : string)
    (preset_path : option string) : Z * preset_vals * list event :=
  if String.eqb name "reset" then (1, pv_reset, [])
  else
    match preset_path with
    | Some p => load_preset_from_file fs p name pv_zero
    | None =>
        let '(st, pv, ev) := load_preset_from_file fs local_ini name pv_zero in
        if negb (Z.eqb st 0) then (st, pv, ev)
        else
          let '(st2, pv2, ev2) := load_preset_from_file fs system_ini name pv in
          (st2, pv2, (ev ++ ev2)%list)  (* 1=ok, 0=not found, -1=error *)
    end.

(** ** [list_presets_from_file] and [list_all_presets] *)

Fixpoint scan_list (path : string) (ls : list string) (count : Z)
  : Z * list event :=
  match ls with
  | [] => (count, [])
  | raw :: ls' =>
      match classify raw with
      | Header name =>
          if negb (String.eqb name "") && negb (String.eqb name "config")
          then
            let '(n, ev) := scan_list path ls' (count + 1) in
            (n, ((if Z.eqb count 0 then [Out (OutAvailable path)] else [])
                   ++ Out (OutName name) :: ev)%list)
          else scan_list path ls' count
      | _ => scan_list path ls' count
      end
  end.

Definition list_presets_from_file (fs : files) (path : string)
  : Z * list event :=
  match fs path with
  | None => (0, [])
  | Some content => scan_list path (file_lines content) 0
  end.

Definition file_exists (fs : files) (path : string) : bool :=
  match fs path with Some _ => true | None => false end.

Definition list_all_presets (fs : files) (preset_path : option string)
  : list event :=
  let '(total, ev) :=
    match preset_path with
    | Some p =>
        if file_exists fs p then list_presets_from_file fs p else (0, [])
    | None =>
        let '(n1, ev1) :=
          if file_exists fs local_ini
          then list_presets_from_file fs local_ini else (0, []) in
        let '(n2, ev2) :=
          if file_exists fs system_ini
          then list_presets_from_file fs system_ini else (0, []) in
        (n1 + n2, (ev1 ++ ev2)%list)
    end in
  (ev
   ++ (if Z.eqb total 0
       then match preset_path with
            | Some p => [Out (OutNoPresetsIn p)]
            | None => [Out OutNoPresetsIni]
            end
       else [])
   ++ [Out (OutName "reset")] (* built-in *))%list.

End WithLibc.

(** ** What a file holds for a preset

    These follow the words of the specification; the theorems relate them
    to the scanners. *)

(** The names of the sections of a file, in file order: the text between
    the brackets when there is some. *)
Definition section_names (content : string) : list string :=
  flat_map (fun raw => match classify raw with
                       | Header name => if String.eqb name "" then [] else [name]
                       | _ => []
                       end)
           (file_lines content).

(** The names a listing of one resource shows: those of its sections,
    but for the reserved [config]. *)
Definition listed_names (fs : files) (path : string) : list string :=
  match fs path with
  | Some content =>
      filter (fun n => negb (String.eqb n "config")) (section_names content)
  | None => []
  end.

(** The file has a section with this name. *)
Definition has_section (want : string) (content : string) : bool :=
  existsb (fun raw => match classify raw with
                      | Header name => String.eqb name want
                      | _ => false
                      end)
          (file_lines content).

(** The keys the preset loader knows. *)
Definition recognized (key : string) : bool :=
  match field_of_key key with
  | Some _ => true
  | None => String.eqb key "crtc"
  end.

(** Some line [key = value] of a section named [want] has a key that
    [test] accepts; [wanted] tells whether the lines start inside such a
    section. *)
Fixpoint section_has_key (test : string -> bool) (want : string)
    (ls : list string) (wanted : bool) : bool :=
  match ls with
  | [] => false
  | raw :: ls' =>
      match classify raw with
      | Header name => section_has_key test want ls' (String.eqb name want)
      | Body l =>
          match key_value l with
          | Some (key, _) =>
              (wanted && test key) || section_has_key test want ls' wanted
          | None => section_has_key test want ls' wanted
          end
      | _ => section_has_key test want ls' wanted
      end
  end.

(** A section [want] of the file gives some recognized key. *)
Definition gives_key (fs : files) (path want : string) : bool :=
  match fs path with
  | Some content => section_has_key recognized want (file_lines content) false
  | None => false
  end.

(** A section [want] of the file gives the key [gamma]. *)
Definition gives_gamma (fs : files) (path want : string) : bool :=
  match fs path with
  | Some content =>
      section_has_key (fun k => String.eqb k "gamma") want
        (file_lines content) false
  | None => false
  end.

(** The resources searched for a preset, in order. *)
Definition search_order (preset_path : option string) : list string :=
  match preset_path with
  | Some p => [p]
  | None => [local_ini; system_ini]
  end.


(** The resources the loader reads for a preset: the second default file
    only when no section of the first gives a recognized key. *)
Definition consulted (fs : files) (preset_path : option string)
    (want : string) : list string :=
  match preset_path with
  | Some p => [p]
  | None =>
      if gives_key fs local_ini want then [local_ini]
      else [local_ini; system_ini]
  end.



(** The lines a listing prints for one resource: nothing when it shows
    no name, else its heading and the names. *)
Definition listing_block (fs : files) (path : string) : list event :=
  match listed_names fs path with
  | [] => []
  | names => Out (OutAvailable path) :: map (fun n => Out (OutName n)) names
  end.

(** The line a listing prints when no resource shows a name. *)
Definition nothing_listed (preset_path : option string) : event :=
  match preset_path with
  | Some p => Out (OutNoPresetsIn p)
  | None => Out OutNoPresetsIni
  end.

(** Reading and writing the fields of a preset by name. *)
Definition pv_have (f : field) (pv : preset_vals) : bool :=
  match f with
  | FGamma => have_gamma pv | FLift => have_lift pv | FGain => have_gain pv
  | FR => have_r pv | FG => have_g pv | FB => have_b pv
  end.

Definition pv_value (f : field) (pv : preset_vals) : double :=
  match f with
  | FGamma => gamma pv | FLift => lift pv | FGain => gain pv
  | FR => r pv | FG => g pv | FB => b pv
  end.

(** An identifier fits [uint32_t]. *)
Definition is_uint32 (z : Z) : Prop := 0 <= z < 2 ^ 32.

End Ini.

(* ================================================================== *)
(** * Synthesis of the table *)
(* ================================================================== *)

Module Lut.

Import IEEE Env.

(** [u16clamp]; [None] where the final conversion is undefined. *)
Definition u16clamp (x : double) : option Z :=
  if dlt x d0 then Some 0
  else if dgt x d65535 then Some 65535
  else to_uint16 (dadd x d_half).

(** The six numeric arguments of [set_gamma_lut]. *)
Record params : Type :=
  { gamma_pow : double; lift : double; gain : double;
    r_mult : double; g_mult : double; b_mult : double }.

(** [lut[i] = v] *)
Fixpoint store {A : Type} (l : list A) (i : nat) (v : A) : list A :=
  match l, i with
  | [], _ => []
  | _ :: l', O => v :: l'
  | a :: l', S i' => a :: store l' i' v
  end.

Definition lut_zero : drm_color_lut := {| red := 0; green := 0; blue := 0 |}.

Section WithLibc.

Variable C : libc.
Variable p : params.
Variable lut_size : Z.   (* uint64_t *)

(** [double x = (double)i / (double)(lut_size - 1);] *)
Definition lut_x (i : Z) : double :=
  ddiv (d_of_Z i) (d_of_Z ((lut_size - 1) mod 2 ^ 64)).

(** [y], after its two clamps. *)
Definition lut_y (i : Z) : double :=
  let y := dmul (pow C (fmax d0 (dadd (lut_x i) (lift p))) (gamma_pow p))
                (gain p) in
  let y := if dlt y d0 then d0 else y in
  if dgt y d1 then d1 else y.

(** [fmax(0.0, fmin(1.0, y * mult))] *)
Definition channel (y mult : double) : double :=
  fmax d0 (fmin d1 (dmul y mult)).

(** The body of the loop at index [i]. *)
Definition lut_entry (i : Z) : option drm_color_lut :=
  let y := lut_y i in
  match u16clamp (dmul (channel y (r_mult p)) d65535),
        u16clamp (dmul (channel y (g_mult p)) d65535),
        u16clamp (dmul (channel y (b_mult p)) d65535) with
  | Some rv, Some gv, Some bv => Some {| red := rv; green := gv; blue := bv |}
  | _, _, _ => None
  end.

(** [for (uint32_t i = 0; i < lut_size; i++)]: the counter is 32 bits wide
    and wraps.  [None] when the body is undefined at some index or the
    loop is still running after [fuel] tests of its condition. *)
Fixpoint lut_loop (fuel : nat) (i : Z) (lut : list drm_color_lut)
  : option (list drm_color_lut) :=
  match fuel with
  | O => None
  | S fuel' =>
      if i <? lut_size
      then match lut_entry i with
           | Some e =>
               lut_loop fuel' ((i + 1) mod 2 ^ 32) (store lut (Z.to_nat i) e)
           | None => None
           end
      else Some lut
  end.

(** The table handed to the driver: [calloc], then the loop. *)
Definition gamma_table (fuel : nat) : option (list drm_color_lut) :=
  lut_loop fuel 0 (repeat lut_zero (Z.to_nat lut_size)).

End WithLibc.

(** ** The table of the specification

    Section 4.2 of the specification, read in [double] arithmetic:
    [x = i / (N-1)] (0 when [N = 1]),
    [y = clamp01(max(0, x + lift) ^ gamma * gain)],
    [value_c = clamp01(y * multiplier_c)], and the entry is
    [round(value_c * 65535)], a 16-bit value. *)

Definition spec_max (a b : double) : double := if dlt a b then b else a.

Definition clamp01 (v : double) : double :=
  if dlt v d0 then d0 else if dlt d1 v then d1 else v.

(** Rounding to the nearest integer, halves upwards: the integral part of
    [v + 0.5]. *)
Definition round_half_up (v : double) : option Z := trunc (dadd v d_half).

(** The rounded value, when it is a 16-bit value. *)
Definition quantize (v : double) : option Z :=
  match round_half_up (dmul v d65535) with
  | Some z => if (0 <=? z) && (z <=? 65535) then Some z else None
  | None => None
  end.

Definition spec_x (n i : Z) : double :=
  if n =? 1 then d0 else ddiv (d_of_Z i) (d_of_Z (n - 1)).

Definition spec_y (C : libc) (p : params) (x : double) : double :=
  clamp01 (dmul (pow C (spec_max d0 (dadd x (lift p))) (gamma_pow p)) (gain p)).

Definition spec_channel (C : libc) (p : params) (x mult : double)
  : option Z :=
  quantize (clamp01 (dmul (spec_y C p x) mult)).

Definition spec_entry (C : libc) (p : params) (n i : Z)
  : option drm_color_lut :=
  let x := spec_x n i in
  match spec_channel C p x (r_mult p), spec_channel C p x (g_mult p),
        spec_channel C p x (b_mult p) with
  | Some rv, Some gv, Some bv => Some {| red := rv; green := gv; blue := bv |}
  | _, _, _ => None
  end.

(** The parameters are within the declared ranges. *)
Definition in_range (v lo hi : double) : bool := dle lo v && dle v hi.

Definition params_in_range (p : params) : bool :=
  in_range (gamma_pow p) Ini.GAMMA_MIN Ini.GAMMA_MAX
  && in_range (lift p) Ini.LIFT_MIN Ini.LIFT_MAX
  && in_range (gain p) Ini.GAIN_MIN Ini.GAIN_MAX
  && in_range (r_mult p) Ini.MULT_MIN Ini.MULT_MAX
  && in_range (g_mult p) Ini.MULT_MIN Ini.MULT_MAX
  && in_range (b_mult p) Ini.MULT_MIN Ini.MULT_MAX.

(** [set_gamma_lut]: the return code and the trace. *)
Definition set_gamma_lut (C : libc) (d : drm) (fuel : nat) (crtc_id : Z)
    (p : params) : option (Z * list event) :=
  match drm_props d crtc_id with
  | None =>
      Some (-1, [HwProps crtc_id; Err (ErrPerror "drmModeObjectGetProperties")])
  | Some (lut_prop, lut_size) =>
      if (lut_prop =? 0) || (lut_size =? 0)
      then Some (-1, [HwProps crtc_id; Err (ErrNoLut crtc_id)])
      else if negb (drm_calloc d)
      then Some (-1, [HwProps crtc_id; Err (ErrPerror "calloc(lut)")])
      else
        match gamma_table C p lut_size fuel with
        | None => None
        | Some lut =>
            let ret := drm_commit d crtc_id lut in
            Some (ret, [HwProps crtc_id; HwCommit crtc_id lut]
                         ++ (if ret =? 0 then []
                             else [Err (ErrPerror "drmModeAtomicCommit")]))
        end
  end.

End Lut.

(* ================================================================== *)
(** * [main] *)
(* ================================================================== *)

Module Cli.

Import IEEE Text Env Ini.
Local Open Scope string_scope.
Local Open Scope Z_scope.

Definition DEFAULT_CRTC : Z := 68.

(** The state of the option loop when it stops. *)
Inductive options : Type :=
| Exit (code : Z) (ev : list event)
| Options (crtc_id : Z) (crtc_override : bool) (preset_path : option string)
          (list_mode : bool) (positional : list string).

Definition starts_with_dash (s : string) : bool :=
  match s with
  | String c _ => Ascii.eqb c "-"
  | EmptyString => false
  end.

Section WithEnv.

Variable C : libc.
Variable fs : files.
Variable d : drm.
Variable fuel : nat.

(** [while (i < argc) ...] over [argv + i]. *)
Fixpoint parse_options (args : list string) (crtc_id : Z)
    (crtc_override : bool) (preset_path : option string) (list_mode : bool)
  : options :=
  match args with
  | [] => Options crtc_id crtc_override preset_path list_mode []
  | a :: rest =>
      if String.eqb a "-h" || String.eqb a "--help" then Exit 0 [Err ErrUsage]
      else if String.eqb a "--list"
      then parse_options rest crtc_id crtc_override preset_path true
      else if String.eqb a "--crtc"
      then match rest with
           | [] => Exit 2 [Err ErrCrtcNeedsArg]
           | v :: rest' =>
               match parse_uint32 C v with
               | None => Exit 2 [Err (ErrCrtcOption v); Err ErrUsage]
               | Some tmp => parse_options rest' tmp true preset_path list_mode
               end
           end
      else if String.eqb a "--presets"
      then match rest with
           | [] => Exit 2 [Err ErrPresetsNeedsArg]
           | v :: rest' =>
               parse_options rest' crtc_id crtc_override (Some v) list_mode
           end
      else if starts_with_dash a
      then Exit 2 [Err (ErrUnknownOption a); Err ErrUsage]
      else Options crtc_id crtc_override preset_path list_mode args
  end.

(** [if (j < argc && !parse_double_in_range(label, argv[j++], ...)) return 2;]
    on what is left of the arguments: [inl] is the return. *)
Definition next_arg (f : field) (dflt : double) (rest : list string)
  : list event + (double * list string) :=
  match rest with
  | [] => inr (dflt, [])
  | a :: rest' =>
      match parse_double_in_range C (field_label f) a
              (field_min f) (field_max f) with
      | (Some v, _) => inr (v, rest')
      | (None, ev) => inl ev
      end
  end.

(** The numeric path, [<gamma> [lift gain r g b]]: [inl] is [return 2]
    with what was printed. *)
Definition numeric_args (gamma_pow : double) (positional : list string)
  : list event + Lut.params :=
  let remaining := Z.of_nat (List.length positional) in
  if (remaining <? 1) || (remaining >? 6)
  then inl [Err (ErrArity remaining); Err ErrUsage]
  else if dlt gamma_pow GAMMA_MIN || dgt gamma_pow GAMMA_MAX
  then inl [Err (ErrRange "gamma" gamma_pow GAMMA_MIN GAMMA_MAX)]
  else
    match next_arg FLift d0 (tl positional) with
    | inl ev => inl ev
    | inr (lift, rest) =>
    match next_arg FGain d1 rest with
    | inl ev => inl ev
    | inr (gain, rest) =>
    match next_arg FR d1 rest with
    | inl ev => inl ev
    | inr (r, rest) =>
    match next_arg FG d1 rest with
    | inl ev => inl ev
    | inr (g, rest) =>
    match next_arg FB d1 rest with
    | inl ev => inl ev
    | inr (b, rest) =>
        match rest with
        | _ :: _ => inl [Err ErrExtraArgs]
        | [] =>
            inr {| Lut.gamma_pow := gamma_pow; Lut.lift := lift;
                   Lut.gain := gain; Lut.r_mult := r; Lut.g_mult := g;
                   Lut.b_mult := b |}
        end
    end end end end end.

(** The preset path: the parameters and the CRTC, or [return 2]. *)
Definition preset_args (preset : string) (preset_path : option string)
    (crtc_id : Z) : list event + (Z * Lut.params) :=
  let '(st, pv, ev) := load_preset C fs preset preset_path in
  if Z.eqb st 0
  then inl (ev ++ Err (ErrNotFound preset)
               :: list_all_presets fs preset_path)%list
  else if st <? 0
  then inl (ev ++ [Err (ErrParsing preset)])%list
  else
    let crtc_id := if have_crtc pv then crtc pv else crtc_id in
    if negb (have_gamma pv)
    then inl (ev ++ [Err (ErrLacksGamma preset)])%list
    else
      inr (crtc_id,
           {| Lut.gamma_pow := gamma pv;
              Lut.lift := if have_lift pv then lift pv else d0;
              Lut.gain := if have_gain pv then gain pv else d1;
              Lut.r_mult := if have_r pv then r pv else d1;
              Lut.g_mult := if have_g pv then g pv else d1;
              Lut.b_mult := if have_b pv then b pv else d1 |}).

(** Open the card, set the table, close: the exit code and the trace. *)
Definition apply_lut (crtc_id : Z) (p : Lut.params)
  : option (Z * list event) :=
  if negb (drm_open d)
  then Some (1, [HwOpen; Err (ErrPerror "open /dev/dri/cardN")])
  else
    match Lut.set_gamma_lut C d fuel crtc_id p with
    | None => None
    | Some (ret, ev) =>
        Some (if Z.eqb ret 0 then 0 else 1,
              (HwOpen :: ev
                 ++ (if Z.eqb ret 0 then [] else [Err (ErrSetFailed ret)]))%list)
    end.

(** [main], on [argv + 1]: the exit code and the trace; [None] when the
    run does not come to an end. *)
Definition main (args : list string) : option (Z * list event) :=
  match parse_options args DEFAULT_CRTC false None false with
  | Exit code ev => Some (code, ev)
  | Options crtc_id crtc_override preset_path list_mode positional =>
      let '(st, cfg, ev0) :=
        if crtc_override then (0, None, [])
        else load_config_crtc C fs preset_path in
      if st <? 0 then Some (2, ev0)
      else
        let crtc_id :=
          match cfg with
          | Some c => if st >? 0 then c else crtc_id
          | None => crtc_id
          end in
        if list_mode
        then
          match positional with
          | _ :: _ => Some (2, ev0 ++ [Err ErrListPositional])%list
          | [] => Some (0, ev0 ++ list_all_presets fs preset_path)%list
          end
        else
          match positional with
          | [] => Some (2, ev0 ++ [Err ErrMissingArgs; Err ErrUsage])%list
          | a :: _ =>
              (* Numeric path (<gamma> [lift gain r g b]) or preset-name *)
              match parse_double_strict C a with
              | Some gamma_pow =>
                  match numeric_args gamma_pow positional with
                  | inl ev => Some (2, ev0 ++ ev)%list
                  | inr p =>
                      match apply_lut crtc_id p with
                      | Some (code, ev) => Some (code, ev0 ++ ev)%list
                      | None => None
                      end
                  end
              | None =>
                  match preset_args a preset_path crtc_id with
                  | inl ev => Some (2, ev0 ++ ev)%list
                  | inr (crtc_id, p) =>
                      match apply_lut crtc_id p with
                      | Some (code, ev) => Some (code, ev0 ++ ev)%list
                      | None => None
                      end
                  end
              end
          end
  end.

End WithEnv.


(** ** The numeric arguments, by position *)

Definition numeric_fields : list field := [FGamma; FLift; FGain; FR; FG; FB].

Definition param_of (f : field) (p : Lut.params) : double :=
  match f with
  | FGamma => Lut.gamma_pow p
  | FLift => Lut.lift p
  | FGain => Lut.gain p
  | FR => Lut.r_mult p
  | FG => Lut.g_mult p
  | FB => Lut.b_mult p
  end.

(** The value a field takes when its argument is left out. *)
Definition default_of (f : field) : double :=
  match f with
  | FLift => d0
  | _ => d1
  end.

(** The value lies in the closed range of the field. *)
Definition field_in_range (f : field) (v : double) : bool :=
  dle (field_min f) v && dle v (field_max f).


(** ** Which CRTC a run addresses *)

(** The CRTC of the preset when it has one, else the one of [--crtc],
    else the one of the [config] section, else the default. *)
Definition chosen_crtc (preset cli config : option Z) : Z :=
  match preset, cli, config with
  | Some c, _, _ => c
  | None, Some c, _ => c
  | None, None, Some c => c
  | None, None, None => DEFAULT_CRTC
  end.

(** The CRTC a request to the driver is about. *)
Definition hw_crtc (e : event) : option Z :=
  match e with
  | HwProps c | HwCommit c _ => Some c
  | _ => None
  end.

(** The tables a run commits. *)
Definition commits (tr : list event) : list (Z * list drm_color_lut) :=
  flat_map (fun e => match e with HwCommit c lut => [(c, lut)] | _ => [] end) tr.

(** What a preset holds is valid: a field that is present is a finite
    number within the range of the field, a CRTC fits 32 bits. *)
Definition pv_valid (pv : preset_vals) : Prop :=
  (forall f, pv_have f pv = true ->
             is_finite (pv_value f pv) = true
             /\ field_in_range f (pv_value f pv) = true)
  /\ (have_crtc pv = true -> is_uint32 (crtc pv)).


(** The CRTC the preset named on the command line gives, if the run takes
    the preset path and the preset has one. *)
Definition preset_crtc (C : libc) (fs : files) (preset_path : option string)
    (positional : list string) : option Z :=
  match positional with
  | name :: _ =>
      match parse_double_strict C name with
      | Some _ => None
      | None =>
          let pv := snd (fst (load_preset C fs name preset_path)) in
          if have_crtc pv then Some (crtc pv) else None
      end
  | [] => None
  end.

End Cli.

(* ================================================================== *)
(** * A reference C library *)
(* ================================================================== *)

(** The theorems below hold for every [libc].  The worked examples need
    one to run: this one reads integers as [strtoul] with base 0 does,
    reads decimal literals without exponent, and raises to the powers 1
    and 2. *)
Module Ref.

Import IEEE Text Env.
Local Open Scope char_scope.
Local Open Scope Z_scope.

(** [isspace] in the C locale. *)
Definition is_space (c : ascii) : bool :=
  Ascii.eqb c " " || ((9 <=? nat_of_ascii c)%nat && (nat_of_ascii c <=? 13)%nat).

Fixpoint skip_space (s : string) : string :=
  match s with
  | String c s' => if is_space c then skip_space s' else s
  | EmptyString => s
  end.

(** The value of a digit in a base. *)
Definition digit_of (base : Z) (c : ascii) : option Z :=
  let n := Z.of_nat (nat_of_ascii c) in
  let v := if (48 <=? n) && (n <=? 57) then Some (n - 48)
           else if (97 <=? n) && (n <=? 122) then Some (n - 87)
           else if (65 <=? n) && (n <=? 90) then Some (n - 55)
           else None in
  match v with
  | Some k => if k <? base then Some k else None
  | None => None
  end.

(** The longest run of digits: its value, and how many there are. *)
Fixpoint digits (base : Z) (s : string) (acc : Z) (n : nat) : Z * nat :=
  match s with
  | String c s' =>
      match digit_of base c with
      | Some k => digits base s' (acc * base + k) (S n)
      | None => (acc, n)
      end
  | EmptyString => (acc, n)
  end.

Definition sign_of (s : string) : bool * string :=
  match s with
  | String c s' =>
      if Ascii.eqb c "-" then (true, s')
      else if Ascii.eqb c "+" then (false, s')
      else (false, s)
  | EmptyString => (false, s)
  end.

(** [strtoul(s, &end, 0)] with a 64-bit [unsigned long]. *)
Definition ref_strtoul (s : string) : conv Z :=
  let s1 := skip_space s in
  let '(neg, s2) := sign_of s1 in
  let '(base, s3) :=
    match s2 with
    | String "0" (String x (String h _ as s')) =>
        if (Ascii.eqb x "x" || Ascii.eqb x "X")
           && match digit_of 16 h with Some _ => true | None => false end
        then (16, s') else (8, s2)
    | String "0" _ => (8, s2)
    | _ => (10, s2)
    end in
  let '(v, n) := digits base s3 0 0 in
  match n with
  | O => {| conv_value := 0; conv_end := 0; conv_errno := false |}
  | _ =>
      let e := (String.length s - String.length s3 + n)%nat in
      if v <? 2 ^ 64
      then {| conv_value := (if neg then (- v) mod 2 ^ 64 else v);
              conv_end := e; conv_errno := false |}
      else {| conv_value := 2 ^ 64 - 1; conv_end := e; conv_errno := true |}
  end.

(** [strtod] on [digits[.digits]] with an optional sign; the quotient of
    two exactly represented integers is rounded once, as [strtod] rounds
    the literal. *)
Definition ref_strtod (s : string) : conv double :=
  let s1 := skip_space s in
  let '(neg, s2) := sign_of s1 in
  let '(ip, n1) := digits 10 s2 0 0 in
  let s3 := substring n1 (String.length s2) s2 in
  let '(v, k, n2) :=
    match s3 with
    | String "." s4 =>
        let '(fp, n) := digits 10 s4 ip 0 in
        (fp, Z.of_nat n, if (n1 + n =? 0)%nat then O else S n)
    | _ => (ip, 0, O)
    end in
  match n1, n2 with
  | O, O => {| conv_value := d0; conv_end := 0; conv_errno := false |}
  | _, _ =>
      let x := ddiv (d_of_Z v) (d_of_Z (10 ^ k)) in
      {| conv_value := (if neg then SFopp x else x);
         conv_end := (String.length s - String.length s2 + n1 + n2)%nat;
         conv_errno := false |}
  end.

(** [pow(x, 1) = x], [pow(x, 2) = x * x]; other exponents are outside
    this model, which answers 1 for them. *)
Definition ref_pow (x y : double) : double :=
  if SFeqb y d1 then x
  else if SFeqb y (d_of_Z 2) then dmul x x
  else d1.

Definition ref_libc : libc :=
  {| strtod := ref_strtod; strtoul := ref_strtoul; pow := ref_pow |}.

End Ref.

(* ================================================================== *)
(** * Inputs of the worked examples *)
(* ================================================================== *)

Module Examples.

Import IEEE Env Lut Ref.
Local Open Scope string_scope.
Local Open Scope Z_scope.

(** gamma=1 lift=0.5 gain=1 r=g=b=1 *)
Definition lifted : params :=
  {| gamma_pow := d1; lift := d_half; gain := d1;
     r_mult := d1; g_mult := d1; b_mult := d1 |}.


(** A driver with a two-entry table that accepts every commit. *)
Definition two_entries : drm :=
  {| drm_open := true;
     drm_props := fun _ => Some (25, 2);
     drm_calloc := true;
     drm_commit := fun _ _ => 0 |}.

(** No file at all. *)
Definition no_files : files := fun _ => None.

(** [./presets.ini] has a section [warm] without any key the loader
    knows, [/etc/gamma-presets.ini] has a complete one. *)
Definition shadowed : files := fun path =>
  if String.eqb path Ini.local_ini
  then Some "[warm]
brightness = 1
"
  else if String.eqb path Ini.system_ini
  then Some "[warm]
gamma = 2
"
  else None.


(** Both default files define [warm]; the first one sets no [gamma]. *)
Definition two_warm : files := fun path =>
  if String.eqb path Ini.local_ini
  then Some "[config]
crtc = 70
[warm]
lift = 0.1
"
  else if String.eqb path Ini.system_ini
  then Some "[warm]
gamma = 2
[cool]
gamma = 1
"
  else None.


(** [./presets.ini] with a preset that names its own CRTC. *)
Definition preset_with_crtc : files := fun path =>
  if String.eqb path Ini.local_ini
  then Some "[config]
crtc = 70
[dim]
gamma = 1
crtc = 99
"
  else None.

End Examples.

(** From here on: the properties of the definitions above. *)

(* ================================================================== *)
(** * The table, on examples *)
(* ================================================================== *)

Module LutExamples.

Import IEEE Env Lut Ref Examples.

(** C4. With a table of one entry the position is 0/0, not a number:
    [fmax] drops it and the entry is black whatever the lift, where the
    specification, at position 0, asks for 32768 with these parameters. *)
Theorem single_entry_ignores_lift :
  params_in_range lifted = true
  /\ gamma_table ref_libc lifted 1 2
     = Some [{| red := 0; green := 0; blue := 0 |}]
  /\ spec_entry ref_libc lifted 1 0
     = Some {| red := 32768; green := 32768; blue := 32768 |}.
Proof. repeat split; vm_compute; reflexivity. Qed.

End LutExamples.

(* ================================================================== *)
(** * Comparison of doubles *)
(* ================================================================== *)

Module IEEEOrder.

Import IEEE.

Lemma SFcompare_none x y :
  SFcompare x y = None <-> is_nan x = true \/ is_nan y = true.
Proof.
  destruct x as [sx|sx| |sx mx ex], y as [sy|sy| |sy my ey]; simpl;
    intuition (try discriminate; auto).
Qed.

(** Swapping the operands of a comparison reverses its result. *)
Lemma SFcompare_swap x y :
  SFcompare y x = option_map CompOpp (SFcompare x y).
Proof.
  destruct x as [sx|sx| |sx mx ex], y as [sy|sy| |sy my ey]; simpl;
    try reflexivity;
    try (destruct sx; reflexivity); try (destruct sy; reflexivity);
    try (destruct sx, sy; reflexivity).
  destruct sx, sy; simpl; try reflexivity.
  - rewrite (Z.compare_antisym ex ey).
    destruct (ex ?= ey); simpl; try reflexivity.
    rewrite (Pos.compare_cont_antisym mx my Eq). reflexivity.
  - rewrite (Z.compare_antisym ex ey).
    destruct (ex ?= ey); simpl; try reflexivity.
    rewrite (Pos.compare_cont_antisym mx my Eq). reflexivity.
Qed.

(** For numbers, "not below or equal" is "above". *)
Lemma dle_false_dlt x y :
  is_nan x = false -> is_nan y = false ->
  dle x y = false -> dlt y x = true.
Proof.
  intros Hx Hy. unfold dle, dlt, SFleb, SFltb. rewrite (SFcompare_swap x y).
  destruct (SFcompare x y) as [[| |]|] eqn:E; simpl; try discriminate; auto.
  apply SFcompare_none in E. destruct E; congruence.
Qed.

Lemma dlt_true_dle x y : dlt y x = true -> dle x y = false.
Proof.
  unfold dle, dlt, SFleb, SFltb. rewrite (SFcompare_swap x y).
  destruct (SFcompare x y) as [[| |]|]; simpl; try discriminate; auto.
Qed.

Lemma dlt_dle x y : dlt x y = true -> dle x y = true.
Proof.
  unfold dle, dlt, SFleb, SFltb.
  destruct (SFcompare x y) as [[| |]|]; simpl; try discriminate; auto.
Qed.

(** The range test of the program, [v < lo || v > hi], against the closed
    interval. *)
Lemma range_test v lo hi :
  is_nan v = false -> is_nan lo = false -> is_nan hi = false ->
  dlt v lo || dgt v hi = negb (dle lo v && dle v hi).
Proof.
  intros Hv Hlo Hhi. change (dgt v hi) with (dlt hi v).
  destruct (dle lo v) eqn:E1; simpl.
  - destruct (dle v hi) eqn:E2; simpl.
    + destruct (dlt v lo) eqn:E3; [apply dlt_true_dle in E3; congruence|].
      destruct (dlt hi v) eqn:E4; [apply dlt_true_dle in E4; congruence|].
      reflexivity.
    + rewrite (dle_false_dlt v hi Hv Hhi E2). apply orb_true_r.
  - now rewrite (dle_false_dlt lo v Hlo Hv E1).
Qed.

Lemma is_finite_not_nan x : is_finite x = true -> is_nan x = false.
Proof. destruct x; simpl; congruence. Qed.

End IEEEOrder.

(* ================================================================== *)
(** * The preset files: properties of the scanners *)
(* ================================================================== *)

Module IniFacts.

Import IEEE Text Env Ini.
Local Open Scope string_scope.
Local Open Scope Z_scope.

Lemma field_of_key_gamma key :
  field_of_key key = Some FGamma <-> key = "gamma".
Proof.
  unfold field_of_key. split.
  - destruct (String.eqb_spec key "gamma") as [E|E]; [now intros _|].
    repeat match goal with
           | |- context [String.eqb ?a ?b] => destruct (String.eqb a b)
           end; discriminate.
  - intros ->. reflexivity.
Qed.

Lemma have_gamma_set_field f v pv :
  f <> FGamma -> have_gamma (set_field f v pv) = have_gamma pv.
Proof. destruct f; intros H; try reflexivity. now elim H. Qed.

Lemma have_gamma_set_crtc v pv : have_gamma (set_crtc v pv) = have_gamma pv.
Proof. reflexivity. Qed.

Section WithLibc.

Variable C : libc.

(** A value is either accepted silently or refused with one line on
    [stderr]. *)
Lemma parse_double_in_range_cases label s lo hi :
  (exists v, parse_double_in_range C label s lo hi = (Some v, [])
             /\ parse_double_strict C s = Some v
             /\ dlt v lo = false /\ dgt v hi = false)
  \/ (exists l, parse_double_in_range C label s lo hi = (None, [Err l])).
Proof.
  unfold parse_double_in_range.
  destruct (parse_double_strict C s) as [v|]; [|right; eauto].
  destruct (dlt v lo) eqn:E1; simpl; [right; eauto|].
  destruct (dgt v hi) eqn:E2; simpl; [right; eauto|].
  left. exists v. auto.
Qed.

(** Without a recognized key in a wanted section the loader leaves its
    state alone and prints nothing. *)
Lemma scan_preset_silent want ls :
  forall wanted st pv,
    section_has_key recognized want ls wanted = false ->
    scan_preset C want ls wanted st pv = (st, pv, []).
Proof.
  induction ls as [|raw ls IH]; intros wanted st pv H; simpl in *; [reflexivity|].
  destruct (classify raw) as [|name| |l]; try (now apply IH).
  destruct (key_value l) as [[key val]|] eqn:K.
  - apply orb_false_iff in H. destruct H as [H1 H2].
    destruct wanted; simpl in *; [|now apply IH].
    unfold recognized in H1.
    destruct (field_of_key key); [discriminate|].
    rewrite H1. now apply IH.
  - destruct wanted; simpl; now apply IH.
Qed.

(** Once a key was loaded the status is 1 or -1 for good. *)
Lemma scan_preset_loaded want ls :
  forall wanted pv,
    fst (fst (scan_preset C want ls wanted 1 pv)) = 1
    \/ fst (fst (scan_preset C want ls wanted 1 pv)) = -1.
Proof.
  induction ls as [|raw ls IH]; intros wanted pv; simpl; [now left|].
  destruct (classify raw) as [|name| |l]; try apply IH.
  destruct wanted; simpl; [|apply IH].
  destruct (key_value l) as [[key val]|]; [|apply IH].
  destruct (field_of_key key) as [f|].
  - destruct (parse_double_in_range_cases (field_label f) val
                (field_min f) (field_max f)) as [(v & -> & _)|(l' & ->)].
    + apply IH.
    + now right.
  - destruct (String.eqb key "crtc"); [|apply IH].
    destruct (parse_uint32 C val); [apply IH|now right].
Qed.

(** A recognized key in a wanted section is seen: the file is the one
    that answers. *)
Lemma scan_preset_found want ls :
  forall wanted st pv,
    section_has_key recognized want ls wanted = true ->
    fst (fst (scan_preset C want ls wanted st pv)) = 1
    \/ fst (fst (scan_preset C want ls wanted st pv)) = -1.
Proof.
  induction ls as [|raw ls IH]; intros wanted st pv H; simpl in *;
    [discriminate|].
  destruct (classify raw) as [|name| |l]; try (now apply IH).
  destruct (key_value l) as [[key val]|] eqn:K.
  - destruct wanted; simpl in *; [|now apply IH].
    unfold recognized in H.
    destruct (field_of_key key) as [f|].
    + destruct (parse_double_in_range_cases (field_label f) val
                  (field_min f) (field_max f)) as [(v & -> & _)|(l' & ->)].
      * apply scan_preset_loaded.
      * now right.
    + destruct (String.eqb key "crtc"); simpl in H; [|now apply IH].
      destruct (parse_uint32 C val); [apply scan_preset_loaded|now right].
  - destruct wanted; simpl; now apply IH.
Qed.

(** The loader sets [have_gamma] only from a [gamma] key of a wanted
    section. *)
Lemma scan_preset_no_gamma want ls :
  forall wanted st pv,
    section_has_key (fun k => String.eqb k "gamma") want ls wanted = false ->
    have_gamma pv = false ->
    have_gamma (snd (fst (scan_preset C want ls wanted st pv))) = false.
Proof.
  induction ls as [|raw ls IH]; intros wanted st pv H Hg; simpl in *; [exact Hg|].
  destruct (classify raw) as [|name| |l]; try (now apply IH).
  destruct (key_value l) as [[key val]|] eqn:K.
  - apply orb_false_iff in H. destruct H as [H1 H2].
    destruct wanted; simpl in *; [|now apply IH].
    destruct (field_of_key key) as [f|] eqn:F.
    + assert (f <> FGamma) as Hf.
      { intros ->. apply field_of_key_gamma in F. subst key. discriminate. }
      destruct (parse_double_in_range_cases (field_label f) val
                  (field_min f) (field_max f)) as [(v & -> & _)|(l' & ->)].
      * apply IH; [exact H2|]. now rewrite have_gamma_set_field.
      * exact Hg.
    + destruct (String.eqb key "crtc").
      * destruct (parse_uint32 C val); [now apply IH|exact Hg].
      * now apply IH.
  - destruct wanted; simpl; now apply IH.
Qed.

(** The loader prints on [stderr] only. *)
Lemma scan_preset_events want ls :
  forall wanted st pv,
    Forall (fun e => exists l, e = Err l)
           (snd (scan_preset C want ls wanted st pv)).
Proof.
  induction ls as [|raw ls IH]; intros wanted st pv; simpl; [constructor|].
  destruct (classify raw) as [|name| |l]; try apply IH.
  destruct wanted; simpl; [|apply IH].
  destruct (key_value l) as [[key val]|]; [|apply IH].
  destruct (field_of_key key) as [f|].
  - destruct (parse_double_in_range_cases (field_label f) val
                (field_min f) (field_max f)) as [(v & -> & _)|(l' & ->)].
    + apply IH.
    + repeat constructor. eauto.
  - destruct (String.eqb key "crtc"); [|apply IH].
    destruct (parse_uint32 C val); [apply IH|repeat constructor; eauto].
Qed.

End WithLibc.

End IniFacts.

(* ================================================================== *)
(** * Resolution of presets, listing *)
(* ================================================================== *)

Module PresetFacts.

Import IEEE Text Env Ini IniFacts Ref Examples.
Local Open Scope string_scope.
Local Open Scope Z_scope.

Section WithLibc.

Variable C : libc.

Lemma load_preset_from_file_silent fs path want pv :
  gives_key fs path want = false ->
  load_preset_from_file C fs path want pv = (0, pv, []).
Proof.
  unfold gives_key, load_preset_from_file.
  destruct (fs path); [|reflexivity].
  apply scan_preset_silent.
Qed.

Lemma load_preset_from_file_found fs path want pv :
  gives_key fs path want = true ->
  fst (fst (load_preset_from_file C fs path want pv)) <> 0.
Proof.
  unfold gives_key, load_preset_from_file.
  destruct (fs path); [|discriminate].
  intros H.
  destruct (scan_preset_found C want (file_lines s) false 0 pv H) as [E|E];
    rewrite E; discriminate.
Qed.

Lemma load_preset_from_file_no_gamma fs path want pv :
  gives_gamma fs path want = false ->
  have_gamma pv = false ->
  have_gamma (snd (fst (load_preset_from_file C fs path want pv))) = false.
Proof.
  unfold gives_gamma, load_preset_from_file.
  destruct (fs path); [|now intros].
  apply scan_preset_no_gamma.
Qed.

Lemma load_preset_from_file_events fs path want pv :
  Forall (fun e => exists l, e = Err l)
         (snd (load_preset_from_file C fs path want pv)).
Proof.
  unfold load_preset_from_file.
  destruct (fs path); [apply scan_preset_events|constructor].
Qed.

(** What [load_preset] returns, by the resource that answers. *)
Lemma load_preset_answer fs name preset_path :
  name <> "reset" ->
  load_preset C fs name preset_path
  = match preset_path with
    | Some p => load_preset_from_file C fs p name pv_zero
    | None =>
        if gives_key fs local_ini name
        then load_preset_from_file C fs local_ini name pv_zero
        else load_preset_from_file C fs system_ini name pv_zero
    end.
Proof.
  intros Hn. unfold load_preset.
  destruct (String.eqb_spec name "reset") as [E|_]; [contradiction|].
  destruct preset_path as [p|]; [reflexivity|].
  destruct (gives_key fs local_ini name) eqn:G.
  - pose proof (load_preset_from_file_found fs local_ini name pv_zero G) as H.
    destruct (load_preset_from_file C fs local_ini name pv_zero)
      as [[st pv] ev]; simpl in H.
    destruct (Z.eqb_spec st 0); [contradiction|reflexivity].
  - rewrite (load_preset_from_file_silent fs local_ini name pv_zero G). simpl.
    destruct (load_preset_from_file C fs system_ini name pv_zero)
      as [[st pv] ev]. reflexivity.
Qed.

End WithLibc.

(** C3 (as amended). The resource that answers for a preset is the first
    in search order in which a section of that name gives a key the
    loader knows: the answer is then what that file alone gives, the
    later file is not read, and nothing of one file is carried into the
    answer of another.  A first file whose section gives no such key is
    passed over. *)
Theorem first_resource_with_a_key_wins :
  forall (C : libc) (fs : files) (name : string),
    name <> "reset" ->
    (gives_key fs local_ini name = true ->
     forall fs' : files,
       fs' local_ini = fs local_ini ->
       load_preset C fs' name None
       = load_preset_from_file C fs local_ini name pv_zero)
    /\ (gives_key fs local_ini name = false ->
        load_preset C fs name None
        = load_preset_from_file C fs system_ini name pv_zero)
    /\ (forall p,
        load_preset C fs name (Some p)
        = load_preset_from_file C fs p name pv_zero).
Proof.
  intros C fs name Hn. repeat split.
  - intros G fs' E. rewrite load_preset_answer by exact Hn.
    assert (gives_key fs' local_ini name = true) as ->
      by (unfold gives_key in *; now rewrite E).
    unfold load_preset_from_file. now rewrite E.
  - intros G. rewrite load_preset_answer by exact Hn. now rewrite G.
  - intros p. now rewrite load_preset_answer by exact Hn.
Qed.

Lemma first_resource_with_a_key_wins_witness :
  "warm" <> "reset"
  /\ gives_key two_warm local_ini "warm" = true
  /\ load_preset ref_libc two_warm "warm" None
     = load_preset_from_file ref_libc two_warm local_ini "warm" pv_zero.
Proof.
  assert ("warm" <> "reset") as Hn by discriminate.
  split; [exact Hn|]. split; [reflexivity|].
  exact (proj1 (first_resource_with_a_key_wins ref_libc two_warm "warm" Hn)
           eq_refl two_warm eq_refl).
Defined.

(** C3, as stated, fails: [./presets.ini] has a section [warm], and the
    answer for [warm] is the one of [/etc/gamma-presets.ini]. *)
Lemma section_without_key_does_not_win :
  (exists content, shadowed local_ini = Some content
                   /\ has_section "warm" content = true)
  /\ load_preset ref_libc shadowed "warm" None
     = (1, set_field FGamma (d_of_Z 2) pv_zero, [])
  /\ load_preset_from_file ref_libc shadowed system_ini "warm" pv_zero
     = (1, set_field FGamma (d_of_Z 2) pv_zero, []).
Proof.
  split; [eexists; split; [reflexivity|vm_compute; reflexivity]|].
  split; vm_compute; reflexivity.
Qed.

(** ** Listing *)

Lemma out_names_app tr1 tr2 :
  out_names (tr1 ++ tr2) = (out_names tr1 ++ out_names tr2)%list.
Proof. unfold out_names. apply flat_map_app. Qed.

Lemma scan_list_names path ls :
  forall count,
    out_names (snd (scan_list path ls count))
    = filter (fun n => negb (String.eqb n "config"))
        (flat_map (fun raw => match classify raw with
                              | Header name =>
                                  if String.eqb name "" then [] else [name]
                              | _ => []
                              end) ls)
    /\ fst (scan_list path ls count)
       = count + Z.of_nat (List.length (out_names (snd (scan_list path ls count)))).
Proof.
  induction ls as [|raw ls IH]; intros count; simpl; [split; [reflexivity|lia]|].
  destruct (classify raw) as [|name| |l]; try apply IH.
  destruct (String.eqb name "") eqn:E1; simpl; [apply IH|].
  destruct (String.eqb name "config") eqn:E2; simpl; [apply IH|].
  destruct (IH (count + 1)) as [IH1 IH2].
  destruct (scan_list path ls (count + 1)) as [n ev]; simpl in *.
  rewrite out_names_app. simpl.
  assert (out_names (if Z.eqb count 0 then [Out (OutAvailable path)] else [])
          = []) as -> by (destruct (Z.eqb count 0); reflexivity).
  simpl. rewrite IH1. split; [reflexivity|].
  rewrite IH2, IH1. lia.
Qed.

Lemma list_presets_from_file_names fs path :
  out_names (snd (list_presets_from_file fs path)) = listed_names fs path
  /\ fst (list_presets_from_file fs path)
     = Z.of_nat (List.length (listed_names fs path)).
Proof.
  unfold list_presets_from_file, listed_names, section_names.
  destruct (fs path) as [content|]; [|split; reflexivity].
  destruct (scan_list_names path (file_lines content) 0) as [H1 H2].
  rewrite H2, H1. split; [reflexivity|lia].
Qed.

Lemma guarded_listing fs path :
  (if file_exists fs path then list_presets_from_file fs path else (0, []))
  = list_presets_from_file fs path.
Proof.
  unfold file_exists, list_presets_from_file.
  destruct (fs path); reflexivity.
Qed.


End PresetFacts.

(* ================================================================== *)
(** * [main]: the stages before the hardware *)
(* ================================================================== *)

Module CliFacts.

Import IEEE IEEEOrder Text Env Ini IniFacts PresetFacts Cli Ref Examples.
Local Open Scope string_scope.
Local Open Scope Z_scope.

Lemma only_stderr_no_hardware tr : only_stderr tr -> no_hardware tr.
Proof.
  unfold only_stderr, no_hardware. apply Forall_impl.
  intros e [l ->]. reflexivity.
Qed.


Lemma list_all_presets_no_hardware fs path :
  no_hardware (list_all_presets fs path).
Proof.
  assert (forall path' ls count, no_hardware (snd (scan_list path' ls count)))
    as Hscan.
  { intros path' ls. induction ls as [|raw ls IH]; intros count; simpl;
      [constructor|].
    destruct (classify raw); try apply IH.
    destruct (negb (String.eqb name "") && negb (String.eqb name "config"));
      [|apply IH].
    specialize (IH (count + 1)).
    destruct (scan_list path' ls (count + 1)) as [n ev]; simpl in *.
    apply Forall_app. split.
    - destruct (Z.eqb count 0); repeat constructor.
    - constructor; [reflexivity|exact IH]. }
  assert (forall p, no_hardware (snd (list_presets_from_file fs p))) as Hfile.
  { intros p. unfold list_presets_from_file.
    destruct (fs p); [apply Hscan|constructor]. }
  unfold list_all_presets. destruct path as [p|].
  - rewrite guarded_listing. specialize (Hfile p).
    destruct (list_presets_from_file fs p) as [n ev]; simpl in *.
    apply Forall_app; split; [exact Hfile|].
    apply Forall_app; split; [destruct (Z.eqb n 0)|]; repeat constructor.
  - rewrite !guarded_listing.
    pose proof (Hfile local_ini) as H1. pose proof (Hfile system_ini) as H2.
    destruct (list_presets_from_file fs local_ini) as [n1 ev1].
    destruct (list_presets_from_file fs system_ini) as [n2 ev2].
    simpl in *.
    apply Forall_app; split; [apply Forall_app; split; assumption|].
    apply Forall_app; split; [destruct (Z.eqb (n1 + n2) 0)|];
      repeat constructor.
Qed.

Section WithLibc.

Variable C : libc.

(** ** The option loop *)

(** The loop stops with 0 for the usage, with 2 for a malformed option;
    it prints on [stderr] only. *)
Lemma parse_options_exit n :
  forall args c o p l code ev,
    (List.length args <= n)%nat ->
    parse_options C args c o p l = Exit code ev ->
    (code = 0 \/ code = 2) /\ only_stderr ev.
Proof.
  induction n as [|n IH]; intros args c o p l code ev Hlen H;
    (destruct args as [|a rest]; [discriminate|]); simpl in Hlen; [lia|].
  simpl in H.
  destruct (String.eqb a "-h" || String.eqb a "--help").
  { inversion H; subst. split; [now left|repeat constructor; eauto]. }
  destruct (String.eqb a "--list"); [eapply IH; [|exact H]; lia|].
  destruct (String.eqb a "--crtc").
  { destruct rest as [|v rest'].
    - inversion H; subst. split; [now right|repeat constructor; eauto].
    - destruct (parse_uint32 C v).
      + eapply IH; [|exact H]. simpl in Hlen. lia.
      + inversion H; subst. split; [now right|repeat constructor; eauto]. }
  destruct (String.eqb a "--presets").
  { destruct rest as [|v rest'].
    - inversion H; subst. split; [now right|repeat constructor; eauto].
    - eapply IH; [|exact H]. simpl in Hlen. lia. }
  destruct (starts_with_dash a); [|discriminate].
  inversion H; subst. split; [now right|repeat constructor; eauto].
Qed.


(** ** The [config] section *)

Lemma scan_config_events ls :
  forall in_config, only_stderr (snd (scan_config C ls in_config)).
Proof.
  induction ls as [|raw ls IH]; intros in_config; simpl; [constructor|].
  destruct (classify raw); try apply IH.
  destruct in_config; simpl; [|apply IH].
  destruct (key_value text) as [[key val]|]; [|apply IH].
  destruct (String.eqb key "crtc"); [|apply IH].
  destruct (parse_uint32 C val); repeat constructor; eauto.
Qed.

Lemma load_config_crtc_from_file_events fs path :
  only_stderr (snd (load_config_crtc_from_file C fs path)).
Proof.
  unfold load_config_crtc_from_file.
  destruct (fs path); [apply scan_config_events|constructor].
Qed.

Lemma load_config_crtc_events fs path :
  only_stderr (snd (load_config_crtc C fs path)).
Proof.
  unfold load_config_crtc. destruct path as [p|];
    [apply load_config_crtc_from_file_events|].
  pose proof (load_config_crtc_from_file_events fs local_ini) as H1.
  pose proof (load_config_crtc_from_file_events fs system_ini) as H2.
  destruct (load_config_crtc_from_file C fs local_ini) as [[st c] ev].
  destruct (negb (Z.eqb st 0)); [exact H1|].
  destruct (load_config_crtc_from_file C fs system_ini) as [[st2 c2] ev2].
  simpl in *. apply Forall_app. now split.
Qed.


End WithLibc.


(** ** The [config] section comes first *)




(** ** [--list] *)




(** ** A preset needs [gamma] *)

(** The file that answers for a preset is one of those consulted. *)
Lemma load_preset_consulted C fs name path :
  name <> "reset" ->
  exists w, In w (consulted fs path name)
            /\ load_preset C fs name path
               = load_preset_from_file C fs w name pv_zero.
Proof.
  intros Hn. rewrite load_preset_answer by exact Hn. unfold consulted.
  destruct path as [p|].
  - exists p. split; [now left|reflexivity].
  - destruct (gives_key fs local_ini name).
    + exists local_ini. split; [now left|reflexivity].
    + exists system_ini. split; [right; now left|reflexivity].
Qed.

(** C9 (as amended). When no section of that name gives [gamma] in the
    resources the loader reads for a preset (the explicit file; else
    [./presets.ini], and [/etc/gamma-presets.ini] when no section of the
    first gives a key the loader knows), the run ends with code 2 before
    the driver is touched, with an error that names the preset: that it
    lacks [gamma] when its other keys load, else that it does not parse
    or is not found. *)
Theorem preset_without_gamma_is_rejected :
  forall (C : libc) (fs : files) (d : drm) (fuel : nat) (args : list string)
         c o path name rest st cfg ev0,
    parse_options C args DEFAULT_CRTC false None false
    = Options c o path false (name :: rest) ->
    (if o then (0, None, []) else load_config_crtc C fs path) = (st, cfg, ev0) ->
    0 <= st ->
    parse_double_strict C name = None ->
    name <> "reset" ->
    (forall p, In p (consulted fs path name) -> gives_gamma fs p name = false) ->
    exists ev,
      main C fs d fuel args = Some (2, (ev0 ++ ev)%list)
      /\ no_hardware (ev0 ++ ev)
      /\ (In (Err (ErrLacksGamma name)) ev
          \/ In (Err (ErrParsing name)) ev
          \/ In (Err (ErrNotFound name)) ev)
      /\ (fst (fst (load_preset C fs name path)) = 1 ->
          In (Err (ErrLacksGamma name)) ev).
Proof.
  intros C fs d fuel args c o path name rest st cfg ev0
         Hopt Hcfg Hst Hname Hreset Hgamma.
  assert (only_stderr ev0) as Hev0.
  { replace ev0 with (snd (if o then (0, None, [])
                           else load_config_crtc C fs path))
      by now rewrite Hcfg.
    destruct o; [constructor|apply load_config_crtc_events]. }
  unfold main. rewrite Hopt, Hcfg.
  destruct (Z.ltb_spec st 0); [lia|]. rewrite Hname.
  unfold preset_args.
  destruct (load_preset_consulted C fs name path Hreset) as (w & Hw & ->).
  pose proof (load_preset_from_file_no_gamma C fs w name pv_zero
                (Hgamma w Hw) eq_refl) as Hg.
  pose proof (load_preset_from_file_events C fs w name pv_zero) as Hev.
  destruct (load_preset_from_file C fs w name pv_zero) as [[st' pv] ev].
  simpl in Hg, Hev. simpl fst.
  assert (forall tr, no_hardware tr -> no_hardware (ev0 ++ ev ++ tr)) as Hno.
  { intros tr Htr. apply Forall_app; split;
      [now apply only_stderr_no_hardware|].
    apply Forall_app; split; [now apply only_stderr_no_hardware|exact Htr]. }
  destruct (Z.eqb_spec st' 0) as [->|Hne].
  - eexists; split; [reflexivity|]. split; [|split].
    + apply Hno. constructor; [reflexivity|apply list_all_presets_no_hardware].
    + right; right. apply in_or_app. right. now left.
    + discriminate.
  - destruct (Z.ltb_spec st' 0).
    + eexists; split; [reflexivity|]. split; [|split].
      * apply Hno. repeat constructor.
      * right; left. apply in_or_app. right. now left.
      * intros ->. lia.
    + rewrite Hg. simpl.
      eexists; split; [reflexivity|]. split; [|split].
      * apply Hno. repeat constructor.
      * left. apply in_or_app. right. now left.
      * intros _. apply in_or_app. right. now left.
Qed.

Lemma preset_without_gamma_is_rejected_witness :
  exists ev,
    main ref_libc two_warm two_entries 0 ["warm"] = Some (2, ev)
    /\ no_hardware ev
    /\ In (Err (ErrLacksGamma "warm")) ev.
Proof.
  destruct (preset_without_gamma_is_rejected ref_libc two_warm two_entries 0%nat
              ["warm"] DEFAULT_CRTC false None "warm" [] 1 (Some 70) [])
    as (ev & H1 & H2 & _ & H3).
  - reflexivity.
  - vm_compute. reflexivity.
  - lia.
  - vm_compute. reflexivity.
  - discriminate.
  - intros p [<-|[]]. vm_compute. reflexivity.
  - exists ev. split; [exact H1|]. split; [exact H2|].
    apply H3. vm_compute. reflexivity.
Defined.

(** C9, as stated, fails: the section [warm] of [./presets.ini] lacks
    [gamma], and the preset [warm] is applied. *)
Lemma section_without_gamma_is_passed_over :
  (exists content, shadowed local_ini = Some content
                   /\ has_section "warm" content = true)
  /\ gives_gamma shadowed local_ini "warm" = false
  /\ main ref_libc shadowed two_entries 3 ["warm"]
     = Some (0, [HwOpen; HwProps 68;
                 HwCommit 68 [{| red := 0; green := 0; blue := 0 |};
                              {| red := 65535; green := 65535;
                                 blue := 65535 |}]]).
Proof.
  split; [eexists; split; [reflexivity|vm_compute; reflexivity]|].
  split; vm_compute; reflexivity.
Qed.


(** ** The numeric arguments *)

Section Numeric.

Variable C : libc.

Lemma parse_double_strict_finite a v :
  parse_double_strict C a = Some v -> is_finite v = true.
Proof.
  unfold parse_double_strict.
  destruct (_ || _); [discriminate|].
  destruct (is_finite (conv_value (strtod C a))) eqn:E; simpl; [|discriminate].
  now intros [= <-].
Qed.

Lemma field_bounds_not_nan f :
  is_nan (field_min f) = false /\ is_nan (field_max f) = false.
Proof. destruct f; split; reflexivity. Qed.

(** The test of the program is the test of the closed range. *)
Lemma field_range_test f v :
  is_finite v = true ->
  dlt v (field_min f) || dgt v (field_max f) = negb (field_in_range f v).
Proof.
  intros Hv. destruct (field_bounds_not_nan f) as [Hlo Hhi].
  apply range_test; [now apply is_finite_not_nan|exact Hlo|exact Hhi].
Qed.

Lemma next_arg_nil f dflt : next_arg C f dflt [] = inr (dflt, []).
Proof. reflexivity. Qed.

Lemma next_arg_cons f dflt a rest :
  next_arg C f dflt (a :: rest)
  = match parse_double_strict C a with
    | None => inl [Err (ErrInvalid (field_label f) a)]
    | Some v =>
        if field_in_range f v then inr (v, rest)
        else inl [Err (ErrRange (field_label f) v (field_min f) (field_max f))]
    end.
Proof.
  unfold next_arg, parse_double_in_range.
  destruct (parse_double_strict C a) as [v|] eqn:E; [|reflexivity].
  rewrite (field_range_test f v (parse_double_strict_finite a v E)).
  destruct (field_in_range f v); reflexivity.
Qed.

Lemma numeric_args_unfold g positional :
  is_finite g = true ->
  numeric_args C g positional
  = let remaining := Z.of_nat (List.length positional) in
    if (remaining <? 1) || (remaining >? 6)
    then inl [Err (ErrArity remaining); Err ErrUsage]
    else if negb (field_in_range FGamma g)
    then inl [Err (ErrRange "gamma" g GAMMA_MIN GAMMA_MAX)]
    else
      match next_arg C FLift d0 (tl positional) with
      | inl ev => inl ev
      | inr (lift, rest) =>
      match next_arg C FGain d1 rest with
      | inl ev => inl ev
      | inr (gain, rest) =>
      match next_arg C FR d1 rest with
      | inl ev => inl ev
      | inr (r, rest) =>
      match next_arg C FG d1 rest with
      | inl ev => inl ev
      | inr (g', rest) =>
      match next_arg C FB d1 rest with
      | inl ev => inl ev
      | inr (b, rest) =>
          match rest with
          | _ :: _ => inl [Err ErrExtraArgs]
          | [] =>
              inr {| Lut.gamma_pow := g; Lut.lift := lift;
                     Lut.gain := gain; Lut.r_mult := r; Lut.g_mult := g';
                     Lut.b_mult := b |}
          end
      end end end end end.
Proof.
  intros Hg. unfold numeric_args.
  now rewrite <- (field_range_test FGamma g Hg).
Qed.

Local Arguments next_arg : simpl never.

Ltac step_args :=
  cbv beta iota delta [tl];
  repeat (rewrite ?next_arg_cons, ?next_arg_nil;
          match goal with
          | H : parse_double_strict C ?a = _
            |- context [parse_double_strict C ?a] => rewrite H
          | H : field_in_range ?f ?v = _
            |- context [field_in_range ?f ?v] => rewrite H
          | |- context [match parse_double_strict C ?a with _ => _ end] =>
              destruct (parse_double_strict C a) eqn:?
          | |- context [field_in_range ?f ?v] =>
              destruct (field_in_range f v) eqn:?
          end; cbv beta iota delta [negb]).

Ltac split_args positional :=
  destruct positional as [|? [|? [|? [|? [|? [|? [|? ?]]]]]]].

Ltac split_index k :=
  destruct k as [|[|[|[|[|[|k]]]]]].


(** Accepted arguments are kept as they were read: each field is the
    number of its argument, within its range, or the default of the field
    when the argument is left out. *)
Lemma numeric_args_accepts g positional a0 rest p :
  positional = a0 :: rest ->
  parse_double_strict C a0 = Some g ->
  numeric_args C g positional = inr p ->
  forall k f,
    nth_error numeric_fields k = Some f ->
    match nth_error positional k with
    | Some a => parse_double_strict C a = Some (param_of f p)
                /\ field_in_range f (param_of f p) = true
    | None => param_of f p = default_of f
    end.
Proof.
  intros Hpos Hg H k f Hf. revert H.
  rewrite numeric_args_unfold by exact (parse_double_strict_finite a0 g Hg).
  cbv zeta.
  destruct (Z.ltb_spec (Z.of_nat (List.length positional)) 1) as [Hlt|_];
    [discriminate|].
  destruct (Z.gtb_spec (Z.of_nat (List.length positional)) 6) as [Hgt|Hle];
    cbv beta iota delta [orb]; [discriminate|].
  assert (List.length positional <= 6)%nat as Hlen by lia. clear Hle.
  subst positional.
  split_args rest; simpl in Hlen; try lia.
  all: split_index k; simpl in Hf; try discriminate Hf;
    try (destruct k; discriminate Hf).
  all: injection Hf as <-.
  all: step_args.
  all: lazymatch goal with
       | |- inl _ = inr _ -> _ => discriminate
       | _ => idtac
       end.
  all: intros [= <-];
    cbv beta iota delta [nth_error param_of default_of Lut.gamma_pow Lut.lift
                           Lut.gain Lut.r_mult Lut.g_mult Lut.b_mult] in *;
    auto.
  all: split; congruence.
Qed.

End Numeric.




End CliFacts.

(* ================================================================== *)
(** * The string helpers *)
(* ================================================================== *)

Module TextFacts.

Import Text.
Local Open Scope string_scope.

Lemma append_nil_r s : s ++ "" = s.
Proof. induction s as [|c s IH]; simpl; [reflexivity|now rewrite IH]. Qed.


Lemma all_chars_app P s t :
  all_chars P (s ++ t) = all_chars P s && all_chars P t.
Proof.
  induction s as [|c s IH]; simpl; [reflexivity|].
  now rewrite IH, andb_assoc.
Qed.

(** ** [s_trim] *)






(** ** The lines of [fgets] *)



(** ** Characters that survive *)

Section Kept.

Variable P : ascii -> bool.

Lemma all_chars_ltrim s : all_chars P s = true -> all_chars P (ltrim s) = true.
Proof.
  induction s as [|c s IH]; simpl; [auto|].
  intros H. apply andb_true_iff in H. destruct H as [H1 H2].
  destruct (is_blank c); [auto|]. simpl. now rewrite H1, H2.
Qed.

Lemma all_chars_rtrim s : all_chars P s = true -> all_chars P (rtrim s) = true.
Proof.
  induction s as [|c s IH]; simpl; [auto|].
  intros H. apply andb_true_iff in H. destruct H as [H1 H2].
  specialize (IH H2).
  destruct (rtrim s).
  - destruct (is_blank c); simpl; [reflexivity|now rewrite H1].
  - simpl in *. now rewrite H1, IH.
Qed.

Lemma all_chars_strip_bom s :
  all_chars P s = true -> all_chars P (strip_bom s) = true.
Proof.
  unfold strip_bom. destruct s as [|a [|b [|c t]]]; auto.
  destruct (_ && _); [|auto]. simpl. intros H.
  repeat (apply andb_true_iff in H; destruct H as [_ H]). exact H.
Qed.

Lemma all_chars_s_trim s : all_chars P s = true -> all_chars P (s_trim s) = true.
Proof.
  intros H. unfold s_trim.
  now apply all_chars_strip_bom, all_chars_rtrim, all_chars_ltrim.
Qed.

Lemma all_chars_take n s : all_chars P s = true -> all_chars P (take n s) = true.
Proof.
  revert s. induction n as [|n IH]; intros [|c s]; simpl; auto.
  intros H. apply andb_true_iff in H. destruct H as [H1 H2].
  now rewrite H1, IH.
Qed.

Lemma all_chars_split_at c s l r :
  all_chars P s = true -> split_at c s = Some (l, r) ->
  all_chars P l = true /\ all_chars P r = true.
Proof.
  revert l r. induction s as [|a s IH]; simpl; intros l r H E; [discriminate|].
  apply andb_true_iff in H. destruct H as [H1 H2].
  destruct (Ascii.eqb a c).
  - injection E as <- <-. auto.
  - destruct (split_at c s) as [[l' r']|]; [|discriminate].
    injection E as <- <-. destruct (IH l' r' H2 eq_refl) as [H3 H4].
    simpl. now rewrite H1, H3.
Qed.

End Kept.

Lemma split_at_left c s l r :
  split_at c s = Some (l, r) ->
  all_chars (fun a => negb (Ascii.eqb a c)) l = true /\ s = l ++ String c r.
Proof.
  revert l r. induction s as [|a s IH]; simpl; intros l r E; [discriminate|].
  destruct (Ascii.eqb_spec a c) as [->|Hne].
  - injection E as <- <-. auto.
  - destruct (split_at c s) as [[l' r']|]; [|discriminate].
    injection E as <- <-. destruct (IH l' r' eq_refl) as [H1 H2].
    simpl. rewrite H1, <- H2.
    destruct (Ascii.eqb_spec a c); [contradiction|auto].
Qed.

Lemma length_take n s : (String.length (take n s) <= n)%nat.
Proof.
  revert s. induction n as [|n IH]; intros [|c s]; simpl; try lia.
  specialize (IH s). lia.
Qed.

Lemma length_ltrim s : (String.length (ltrim s) <= String.length s)%nat.
Proof.
  induction s as [|c s IH]; simpl; [lia|]. destruct (is_blank c); simpl; lia.
Qed.

Lemma length_rtrim s : (String.length (rtrim s) <= String.length s)%nat.
Proof.
  induction s as [|c s IH]; simpl; [lia|].
  destruct (rtrim s); [destruct (is_blank c)|]; simpl in *; lia.
Qed.

Lemma length_strip_bom s : (String.length (strip_bom s) <= String.length s)%nat.
Proof.
  unfold strip_bom. destruct s as [|a [|b [|c t]]]; simpl; try lia.
  destruct (_ && _); simpl; lia.
Qed.

Lemma length_s_trim s : (String.length (s_trim s) <= String.length s)%nat.
Proof.
  unfold s_trim.
  pose proof (length_strip_bom (rtrim (ltrim s))).
  pose proof (length_rtrim (ltrim s)). pose proof (length_ltrim s). lia.
Qed.

Lemma strip_comment_plain s : all_chars is_plain (strip_comment (c_str s)) = true.
Proof.
  induction s as [|c s IH]; simpl; [reflexivity|].
  destruct (Ascii.eqb c NUL) eqn:E0; simpl; [reflexivity|].
  destruct (Ascii.eqb c "#") eqn:E1; simpl; [reflexivity|].
  destruct (Ascii.eqb c ";") eqn:E2; simpl; [reflexivity|].
  unfold is_plain at 1. now rewrite E0, E1, E2.
Qed.

End TextFacts.

(* ================================================================== *)
(** * The scanners: what they keep and what they report *)
(* ================================================================== *)

Module ScannerFacts.

Import IEEE IEEEOrder Text TextFacts Env Ini IniFacts PresetFacts Cli CliFacts
       Ref Examples.
Local Open Scope string_scope.
Local Open Scope Z_scope.

Lemma clean_plain raw : all_chars is_plain (clean raw) = true.
Proof. unfold clean. apply all_chars_s_trim, strip_comment_plain. Qed.

(** X3. A section name is at most 255 characters long and holds no ']';
    a key holds no '='; and no name, key or value holds a '#', a ';' or a
    NUL: a comment character always starts a comment, there is no way to
    quote it. *)
Theorem names_keys_values_hold_no_comment_character :
  (forall raw name,
      classify raw = Header name ->
      (String.length name <= 255)%nat
      /\ all_chars is_plain name = true
      /\ all_chars (fun c => negb (Ascii.eqb c "]")) name = true)
  /\ (forall raw l key val,
         classify raw = Body l ->
         key_value l = Some (key, val) ->
         all_chars is_plain key = true
         /\ all_chars (fun c => negb (Ascii.eqb c "=")) key = true
         /\ all_chars is_plain val = true).
Proof.
  split.
  - intros raw name. unfold classify.
    pose proof (clean_plain raw) as Hp.
    destruct (clean raw) as [|c rest]; [discriminate|].
    destruct (Ascii.eqb c "["); [|discriminate].
    destruct (split_at "]" rest) as [[nm after]|] eqn:E; [|discriminate].
    simpl in Hp. apply andb_true_iff in Hp. destruct Hp as [_ Hp].
    destruct (all_chars_split_at is_plain _ _ _ _ Hp E) as [H1 _].
    destruct (split_at_left _ _ _ _ E) as [H2 _].
    pose proof (length_s_trim (take 255 nm)) as L1.
    pose proof (length_take 255 nm) as L2.
    pose proof (all_chars_take is_plain 255 nm H1) as H3.
    pose proof (all_chars_take _ 255 nm H2) as H4.
    remember (take 255 nm) as t eqn:Et. clear Et.
    intros [= <-].
    split; [lia|]. split; now apply all_chars_s_trim.
  - intros raw l key val. unfold classify, key_value.
    pose proof (clean_plain raw) as Hp.
    destruct (clean raw) as [|c rest]; [discriminate|].
    destruct (Ascii.eqb c "["); [destruct (split_at "]" rest) as [[? ?]|];
                                 discriminate|].
    intros [= <-].
    destruct (split_at "=" (String c rest)) as [[k v]|] eqn:E; [|discriminate].
    intros [= <- <-].
    destruct (all_chars_split_at is_plain _ _ _ _ Hp E) as [H1 H2].
    destruct (split_at_left _ _ _ _ E) as [H3 _].
    repeat split; now apply all_chars_s_trim.
Qed.

Section WithLibc.

Variable C : libc.

Lemma parse_uint32_range s u : parse_uint32 C s = Some u -> is_uint32 u.
Proof.
  unfold parse_uint32, is_uint32. destruct (_ || _); [discriminate|].
  intros [= <-]. apply Z.mod_pos_bound. reflexivity.
Qed.

(** ** The preset loader *)

(** The loader ends silently with the status it had or with 1, or with
    -1 and one line on [stderr]. *)
Lemma scan_preset_outcome want ls :
  forall wanted st0 pv,
    (exists pv', scan_preset C want ls wanted st0 pv = (st0, pv', [])
                 \/ scan_preset C want ls wanted st0 pv = (1, pv', []))
    \/ (exists pv' l, scan_preset C want ls wanted st0 pv = (-1, pv', [Err l])).
Proof.
  assert (forall ls wanted pv,
             (exists pv', scan_preset C want ls wanted 1 pv = (1, pv', []))
             \/ (exists pv' l,
                    scan_preset C want ls wanted 1 pv = (-1, pv', [Err l])))
    as Hone.
  { clear ls. induction ls as [|raw ls IH]; intros wanted pv; simpl; [eauto|].
    destruct (classify raw) as [|name| |l]; try apply IH.
    destruct wanted; cbn [negb]; [|apply IH].
    destruct (key_value l) as [[key val]|]; [|apply IH].
    destruct (field_of_key key) as [f|].
    - destruct (parse_double_in_range_cases C (field_label f) val
                  (field_min f) (field_max f)) as [(v & -> & _)|(l' & ->)];
        [apply IH|eauto].
    - destruct (String.eqb key "crtc"); [|apply IH].
      destruct (parse_uint32 C val); [apply IH|eauto]. }
  induction ls as [|raw ls IH]; intros wanted st0 pv; simpl; [eauto|].
  destruct (classify raw) as [|name| |l]; try apply IH.
  destruct wanted; cbn [negb]; [|apply IH].
  destruct (key_value l) as [[key val]|]; [|apply IH].
  destruct (field_of_key key) as [f|].
  - destruct (parse_double_in_range_cases C (field_label f) val
                (field_min f) (field_max f)) as [(v & -> & _)|(l' & ->)];
      [|eauto].
    destruct (Hone ls true (set_field f v pv)) as [(pv' & ->)|(pv' & l' & ->)];
      eauto.
  - destruct (String.eqb key "crtc"); [|apply IH].
    destruct (parse_uint32 C val); [|eauto].
    destruct (Hone ls true (set_crtc z pv)) as [(pv' & ->)|(pv' & l' & ->)];
      eauto.
Qed.

(** X4. [load_preset_from_file] answers 0, 1 or -1.  It answers 0, with
    the preset untouched and nothing printed, exactly when the file has no
    section of that name giving a key the loader knows (no such file
    included); it answers 1 without printing; it answers -1 with exactly
    one line on [stderr]. *)
Theorem loader_status_tells_what_happened :
  forall fs path want pv st pv' ev,
    load_preset_from_file C fs path want pv = (st, pv', ev) ->
    (st = 0 /\ pv' = pv /\ ev = [] /\ gives_key fs path want = false)
    \/ (st = 1 /\ ev = [] /\ gives_key fs path want = true)
    \/ (st = -1 /\ (exists l, ev = [Err l]) /\ gives_key fs path want = true).
Proof.
  intros fs path want pv st pv' ev H.
  destruct (gives_key fs path want) eqn:G.
  - pose proof (load_preset_from_file_found C fs path want pv G) as Hne.
    rewrite H in Hne. simpl in Hne.
    unfold load_preset_from_file in H. unfold gives_key in G.
    destruct (fs path) as [content|]; [|discriminate].
    destruct (scan_preset_outcome want (file_lines content) false 0 pv)
      as [(p & [E|E])|(p & l & E)]; rewrite E in H; injection H as <- <- <-.
    + contradiction.
    + right; left. auto.
    + right; right. eauto.
  - rewrite (load_preset_from_file_silent C fs path want pv G) in H.
    injection H as <- <- <-. left. auto.
Qed.

Lemma pv_valid_set_field f v pv :
  pv_valid pv -> is_finite v = true -> field_in_range f v = true ->
  pv_valid (set_field f v pv).
Proof.
  intros [H1 H2] Hv Hr. split.
  - intros f'. specialize (H1 f').
    destruct f, f'; cbn [set_field pv_have pv_value have_gamma have_lift
                           have_gain have_r have_g have_b gamma lift gain r
                           g b] in *; auto.
  - destruct f; exact H2.
Qed.

Lemma pv_valid_set_crtc u pv :
  pv_valid pv -> is_uint32 u -> pv_valid (set_crtc u pv).
Proof.
  intros [H1 H2] Hu. split.
  - intros f. specialize (H1 f). destruct f; exact H1.
  - intros _. exact Hu.
Qed.

Lemma parse_double_in_range_valid f val v ev :
  parse_double_in_range C (field_label f) val (field_min f) (field_max f)
  = (Some v, ev) ->
  is_finite v = true /\ field_in_range f v = true.
Proof.
  intros H.
  destruct (parse_double_in_range_cases C (field_label f) val
              (field_min f) (field_max f))
    as [(v' & E & Hs & H1 & H2)|(l & E)]; rewrite E in H; [|discriminate].
  injection H as <- <-.
  pose proof (parse_double_strict_finite C val v' Hs) as Hf.
  split; [exact Hf|].
  pose proof (field_range_test f v' Hf) as Ht.
  rewrite H1, H2 in Ht. simpl in Ht.
  now destruct (field_in_range f v').
Qed.

Lemma scan_preset_valid want ls :
  forall wanted st pv,
    pv_valid pv ->
    pv_valid (snd (fst (scan_preset C want ls wanted st pv))).
Proof.
  induction ls as [|raw ls IH]; intros wanted st pv Hpv; simpl; [exact Hpv|].
  destruct (classify raw) as [|name| |l]; try (now apply IH).
  destruct wanted; cbn [negb]; [|now apply IH].
  destruct (key_value l) as [[key val]|]; [|now apply IH].
  destruct (field_of_key key) as [f|].
  - destruct (parse_double_in_range C (field_label f) val
                (field_min f) (field_max f)) as [[v|] ev] eqn:E; [|exact Hpv].
    destruct (parse_double_in_range_valid f val v ev E) as [Hf Hr].
    apply IH. now apply pv_valid_set_field.
  - destruct (String.eqb key "crtc"); [|now apply IH].
    destruct (parse_uint32 C val) as [u|] eqn:E; [|exact Hpv].
    apply IH. apply pv_valid_set_crtc; [exact Hpv|].
    exact (parse_uint32_range val u E).
Qed.

Lemma pv_zero_valid : pv_valid pv_zero.
Proof. split; [intros f; destruct f|]; discriminate. Qed.

Lemma pv_reset_valid : pv_valid pv_reset.
Proof.
  split; [|discriminate]. intros f _. destruct f; split; reflexivity.
Qed.

Lemma load_preset_from_file_valid fs path want pv :
  pv_valid pv ->
  pv_valid (snd (fst (load_preset_from_file C fs path want pv))).
Proof.
  intros H. unfold load_preset_from_file.
  destruct (fs path); [now apply scan_preset_valid|exact H].
Qed.

(** X5. Whatever [load_preset] returns, with any status, each field the
    preset holds is a finite number within the closed range of the field,
    and its CRTC fits 32 bits: a value out of range is never stored. *)
Theorem loaded_values_are_in_range :
  forall fs name preset_path st pv ev,
    load_preset C fs name preset_path = (st, pv, ev) ->
    (forall f, pv_have f pv = true ->
               is_finite (pv_value f pv) = true
               /\ field_in_range f (pv_value f pv) = true)
    /\ (have_crtc pv = true -> is_uint32 (crtc pv)).
Proof.
  intros fs name preset_path st pv ev H.
  change (pv_valid pv).
  replace pv with (snd (fst (load_preset C fs name preset_path)))
    by now rewrite H.
  unfold load_preset.
  destruct (String.eqb name "reset"); [exact pv_reset_valid|].
  destruct preset_path as [p|].
  - apply load_preset_from_file_valid, pv_zero_valid.
  - pose proof (load_preset_from_file_valid fs local_ini name pv_zero
                  pv_zero_valid) as H1.
    destruct (load_preset_from_file C fs local_ini name pv_zero)
      as [[st1 pv1] ev1]. simpl in H1.
    destruct (negb (Z.eqb st1 0)); [exact H1|].
    pose proof (load_preset_from_file_valid fs system_ini name pv1 H1) as H2.
    destruct (load_preset_from_file C fs system_ini name pv1)
      as [[st2 pv2] ev2]. exact H2.
Qed.

(** ** The [config] section *)

Lemma scan_config_outcome ls :
  forall in_config,
    scan_config C ls in_config = (0, None, [])
    \/ (exists c, scan_config C ls in_config = (1, Some c, [])
                  /\ is_uint32 c)
    \/ (exists t, scan_config C ls in_config
                  = (-1, None, [Err (ErrCrtcConfig t)])).
Proof.
  induction ls as [|raw ls IH]; intros in_config; simpl; [now left|].
  destruct (classify raw) as [|name| |l]; try apply IH.
  destruct in_config; cbn [negb]; [|apply IH].
  destruct (key_value l) as [[key val]|]; [|apply IH].
  destruct (String.eqb key "crtc"); [|apply IH].
  destruct (parse_uint32 C val) as [u|] eqn:E.
  - right; left. exists u. split; [reflexivity|].
    exact (parse_uint32_range val u E).
  - right; right. eauto.
Qed.

(** X6. The search for the [config] section answers 0 with no value and
    nothing printed, or 1 with a CRTC that fits 32 bits and nothing
    printed, or -1 with no value and the one line that quotes the bad
    text. *)
Theorem config_status_tells_what_happened :
  forall fs preset_path,
    load_config_crtc C fs preset_path = (0, None, [])
    \/ (exists c, load_config_crtc C fs preset_path = (1, Some c, [])
                  /\ is_uint32 c)
    \/ (exists t, load_config_crtc C fs preset_path
                  = (-1, None, [Err (ErrCrtcConfig t)])).
Proof.
  assert (forall fs p,
             load_config_crtc_from_file C fs p = (0, None, [])
             \/ (exists c, load_config_crtc_from_file C fs p = (1, Some c, [])
                           /\ is_uint32 c)
             \/ (exists t, load_config_crtc_from_file C fs p
                           = (-1, None, [Err (ErrCrtcConfig t)]))) as Hfile.
  { intros fs p. unfold load_config_crtc_from_file.
    destruct (fs p); [apply scan_config_outcome|now left]. }
  intros fs [p|]; simpl; [apply Hfile|].
  destruct (Hfile fs local_ini) as [E|[(c & E & Hc)|(t & E)]]; rewrite E; simpl.
  - destruct (Hfile fs system_ini) as [E2|[(c & E2 & Hc)|(t & E2)]];
      rewrite E2; simpl; eauto.
  - right; left. eauto.
  - right; right. eauto.
Qed.

End WithLibc.

(** X7. With [--presets <file>] the two default files are never read:
    what the program finds is the same whatever they hold. *)
Theorem explicit_resource_replaces_the_defaults :
  forall (C : libc) (fs fs' : files) (p name : string),
    fs p = fs' p ->
    load_config_crtc C fs (Some p) = load_config_crtc C fs' (Some p)
    /\ load_preset C fs name (Some p) = load_preset C fs' name (Some p)
    /\ list_all_presets fs (Some p) = list_all_presets fs' (Some p).
Proof.
  intros C fs fs' p name E. repeat split.
  - unfold load_config_crtc, load_config_crtc_from_file. now rewrite E.
  - unfold load_preset, load_preset_from_file. now rewrite E.
  - unfold list_all_presets, file_exists, list_presets_from_file.
    now rewrite E.
Qed.

Lemma explicit_resource_replaces_the_defaults_witness :
  load_preset ref_libc two_warm "warm" (Some "mine.ini")
  = load_preset ref_libc no_files "warm" (Some "mine.ini").
Proof.
  exact (proj1 (proj2 (explicit_resource_replaces_the_defaults ref_libc
                         two_warm no_files "mine.ini" "warm" eq_refl))).
Defined.

(** ** The listing, line by line *)

Lemma scan_list_lines path ls :
  forall count,
    0 <= count ->
    let names :=
      filter (fun n => negb (String.eqb n "config"))
        (flat_map (fun raw => match classify raw with
                              | Header name =>
                                  if String.eqb name "" then [] else [name]
                              | _ => []
                              end) ls) in
    snd (scan_list path ls count)
    = ((if Z.eqb count 0
        then match names with [] => [] | _ => [Out (OutAvailable path)] end
        else [])
         ++ map (fun n => Out (OutName n)) names)%list.
Proof.
  induction ls as [|raw ls IH]; intros count Hc; cbv zeta; simpl.
  - destruct (Z.eqb count 0); reflexivity.
  - destruct (classify raw) as [|name| |l]; try (now apply IH).
    destruct (String.eqb name "") eqn:E1; simpl; [now apply IH|].
    destruct (String.eqb name "config") eqn:E2; simpl; [now apply IH|].
    specialize (IH (count + 1) ltac:(lia)). cbv zeta in IH.
    destruct (scan_list path ls (count + 1)) as [n ev]. simpl in *.
    rewrite IH.
    destruct (Z.eqb_spec (count + 1) 0); [lia|].
    destruct (Z.eqb count 0); reflexivity.
Qed.

Lemma list_presets_from_file_lines fs path :
  snd (list_presets_from_file fs path) = listing_block fs path.
Proof.
  unfold list_presets_from_file, listing_block, listed_names, section_names.
  destruct (fs path) as [content|]; [|reflexivity].
  rewrite (scan_list_lines path (file_lines content) 0 ltac:(lia)).
  cbv zeta. simpl.
  destruct (filter _ _); reflexivity.
Qed.

(** X8. What [--list] prints, line for line: for each resource of the
    search order that shows a name, its heading and then its names; the
    line that nothing was found exactly when no resource shows a name;
    and [reset] as the last line, always. *)
Theorem listing_line_by_line :
  forall (fs : files) (preset_path : option string),
    list_all_presets fs preset_path
    = (flat_map (listing_block fs) (search_order preset_path)
       ++ (match flat_map (listed_names fs) (search_order preset_path) with
           | [] => [nothing_listed preset_path]
           | _ => []
           end)
       ++ [Out (OutName "reset")])%list.
Proof.
  intros fs preset_path. unfold list_all_presets, search_order.
  destruct preset_path as [p|].
  - rewrite guarded_listing.
    pose proof (list_presets_from_file_lines fs p) as H1.
    destruct (list_presets_from_file_names fs p) as [_ H2].
    destruct (list_presets_from_file fs p) as [n ev]; simpl in *.
    subst ev n. rewrite !app_nil_r.
    destruct (listed_names fs p); reflexivity.
  - rewrite !guarded_listing.
    pose proof (list_presets_from_file_lines fs local_ini) as H1.
    pose proof (list_presets_from_file_lines fs system_ini) as H3.
    destruct (list_presets_from_file_names fs local_ini) as [_ H2].
    destruct (list_presets_from_file_names fs system_ini) as [_ H4].
    destruct (list_presets_from_file fs local_ini) as [n1 ev1].
    destruct (list_presets_from_file fs system_ini) as [n2 ev2].
    simpl in *. subst ev1 ev2 n1 n2. rewrite !app_nil_r.
    destruct (listed_names fs local_ini) as [|a l1];
      destruct (listed_names fs system_ini) as [|b l2]; reflexivity.
Qed.


Lemma loader_status_tells_what_happened_witness :
  gives_key shadowed local_ini "warm" = false
  /\ gives_key shadowed system_ini "warm" = true.
Proof.
  split.
  - destruct (loader_status_tells_what_happened ref_libc shadowed local_ini
                "warm" pv_zero 0 pv_zero [] eq_refl)
      as [(_ & _ & _ & H)|[(H & _)|(H & _)]];
      [exact H|discriminate H|discriminate H].
  - destruct (loader_status_tells_what_happened ref_libc shadowed system_ini
                "warm" pv_zero 1 (set_field FGamma (d_of_Z 2) pv_zero) []
                eq_refl)
      as [(H & _)|[(_ & _ & H)|(H & _)]];
      [discriminate H|exact H|discriminate H].
Defined.

Lemma loaded_values_are_in_range_witness :
  field_in_range FGamma (d_of_Z 2) = true.
Proof.
  exact (proj2 (proj1 (loaded_values_are_in_range ref_libc shadowed "warm"
                         None 1 (set_field FGamma (d_of_Z 2) pv_zero) []
                         eq_refl) FGamma eq_refl)).
Defined.

End ScannerFacts.

(* ================================================================== *)
(** * [main]: what reaches the driver *)
(* ================================================================== *)

Module MainFacts.

Import IEEE IEEEOrder Text Env Ini IniFacts PresetFacts Cli CliFacts
       ScannerFacts Ref Examples.
Local Open Scope string_scope.
Local Open Scope Z_scope.

Lemma default_in_range f : field_in_range f (default_of f) = true.
Proof. destruct f; vm_compute; reflexivity. Qed.

Lemma params_in_range_fields p :
  (forall f, field_in_range f (param_of f p) = true) ->
  Lut.params_in_range p = true.
Proof.
  intros H. unfold Lut.params_in_range, Lut.in_range.
  pose proof (H FGamma) as H1. pose proof (H FLift) as H2.
  pose proof (H FGain) as H3. pose proof (H FR) as H4.
  pose proof (H FG) as H5. pose proof (H FB) as H6.
  unfold field_in_range, param_of, field_min, field_max in *.
  now rewrite H1, H2, H3, H4, H5, H6.
Qed.

(** X9. The parameters that reach [set_gamma_lut], from the numeric
    arguments or from a preset, defaults included, all lie within the
    declared ranges. *)
Theorem accepted_parameters_are_in_range :
  forall (C : libc) (fs : files),
    (forall g positional a0 rest p,
        positional = a0 :: rest ->
        parse_double_strict C a0 = Some g ->
        numeric_args C g positional = inr p ->
        Lut.params_in_range p = true)
    /\ (forall name preset_path c c' p,
           preset_args C fs name preset_path c = inr (c', p) ->
           Lut.params_in_range p = true).
Proof.
  intros C fs. split.
  - intros g positional a0 rest p Hpos Hg H.
    apply params_in_range_fields. intros f.
    assert (exists k, nth_error numeric_fields k = Some f) as [k Hk].
    { destruct f; [exists 0%nat|exists 1%nat|exists 2%nat|exists 3%nat
                   |exists 4%nat|exists 5%nat]; reflexivity. }
    pose proof (numeric_args_accepts C g positional a0 rest p Hpos Hg H k f Hk)
      as Hf.
    destruct (nth_error positional k); [apply Hf|].
    rewrite Hf. apply default_in_range.
  - intros name preset_path c c' p. unfold preset_args.
    destruct (load_preset C fs name preset_path) as [[st pv] ev] eqn:E.
    destruct (loaded_values_are_in_range C fs name preset_path st pv ev E)
      as [Hv _].
    destruct (Z.eqb st 0); [discriminate|].
    destruct (st <? 0); [discriminate|].
    destruct (have_gamma pv) eqn:Hg; cbn [negb]; [|discriminate].
    intros [= _ <-].
    apply params_in_range_fields. intros f.
    pose proof (Hv f) as Hf. pose proof (default_in_range f) as Hd.
    destruct f; cbn [param_of pv_have pv_value default_of Lut.gamma_pow
                       Lut.lift Lut.gain Lut.r_mult Lut.g_mult Lut.b_mult] in *.
    + now apply Hf.
    + destruct (have_lift pv); [now apply Hf|exact Hd].
    + destruct (have_gain pv); [now apply Hf|exact Hd].
    + destruct (have_r pv); [now apply Hf|exact Hd].
    + destruct (have_g pv); [now apply Hf|exact Hd].
    + destruct (have_b pv); [now apply Hf|exact Hd].
Qed.

Lemma accepted_parameters_are_in_range_witness :
  Lut.params_in_range
    {| Lut.gamma_pow := d1; Lut.lift := d0; Lut.gain := d1;
       Lut.r_mult := d1; Lut.g_mult := d1; Lut.b_mult := d1 |} = true.
Proof.
  refine (proj1 (accepted_parameters_are_in_range ref_libc no_files)
            d1 ["1.0"] "1.0" [] _ eq_refl _ _).
  - vm_compute. reflexivity.
  - vm_compute. reflexivity.
Defined.

(** ** The option loop *)

(** X10. When the option loop hands over, what it leaves is the end of
    the command line, and the first argument left does not start with a
    dash: a negative number cannot be given as [gamma]. *)
Theorem first_positional_has_no_dash :
  forall (C : libc) (args : list string) c o p l c' o' p' l' positional,
    parse_options C args c o p l = Options c' o' p' l' positional ->
    (exists options, args = (options ++ positional)%list)
    /\ match positional with
       | a :: _ => starts_with_dash a = false
       | [] => True
       end.
Proof.
  intros C args.
  assert (forall n args c o p l c' o' p' l' positional,
             (List.length args <= n)%nat ->
             parse_options C args c o p l = Options c' o' p' l' positional ->
             (exists options, args = (options ++ positional)%list)
             /\ match positional with
                | a :: _ => starts_with_dash a = false
                | [] => True
                end) as H.
  { clear args. induction n as [|n IH];
      intros args c o p l c' o' p' l' positional Hlen H;
      (destruct args as [|a rest];
       [simpl in H; injection H as <- <- <- <- <-;
        split; [now exists []|exact I]|]); simpl in Hlen; [lia|].
    simpl in H.
    destruct (String.eqb a "-h" || String.eqb a "--help"); [discriminate|].
    destruct (String.eqb a "--list").
    { destruct (IH rest _ _ _ _ _ _ _ _ _ ltac:(lia) H) as [[opts ->] H2].
      split; [now exists (a :: opts)|exact H2]. }
    destruct (String.eqb a "--crtc").
    { destruct rest as [|v rest']; [discriminate|].
      destruct (parse_uint32 C v); [|discriminate]. simpl in Hlen.
      destruct (IH rest' _ _ _ _ _ _ _ _ _ ltac:(lia) H) as [[opts ->] H2].
      split; [now exists (a :: v :: opts)|exact H2]. }
    destruct (String.eqb a "--presets").
    { destruct rest as [|v rest']; [discriminate|]. simpl in Hlen.
      destruct (IH rest' _ _ _ _ _ _ _ _ _ ltac:(lia) H) as [[opts ->] H2].
      split; [now exists (a :: v :: opts)|exact H2]. }
    destruct (starts_with_dash a) eqn:D; [discriminate|].
    injection H as <- <- <- <- <-. split; [now exists []|exact D]. }
  intros c o p l c' o' p' l' positional. apply (H (List.length args)). lia.
Qed.

Lemma first_positional_has_no_dash_witness :
  (exists options,
      ["--presets"; "p.ini"; "warm"; "-x"] = (options ++ ["warm"; "-x"])%list)
  /\ starts_with_dash "warm" = false.
Proof.
  exact (first_positional_has_no_dash ref_libc
           ["--presets"; "p.ini"; "warm"; "-x"] DEFAULT_CRTC false None false
           DEFAULT_CRTC false (Some "p.ini") false ["warm"; "-x"] eq_refl).
Defined.

(** The CRTC the loop hands over is the one of [--crtc], else the one it
    started with; it fits 32 bits when that one does. *)
Lemma parse_options_crtc C n :
  forall args c o p l c' o' p' l' pos,
    (List.length args <= n)%nat ->
    parse_options C args c o p l = Options c' o' p' l' pos ->
    (is_uint32 c -> is_uint32 c') /\ (o' = false -> c' = c).
Proof.
  induction n as [|n IH]; intros args c o p l c' o' p' l' pos Hlen H;
    (destruct args as [|a rest];
     [simpl in H; injection H as <- <- <- <- <-; auto|]); simpl in Hlen; [lia|].
  simpl in H.
  destruct (String.eqb a "-h" || String.eqb a "--help"); [discriminate|].
  destruct (String.eqb a "--list"); [eapply (IH rest); [lia|exact H]|].
  destruct (String.eqb a "--crtc").
  { destruct rest as [|v rest']; [discriminate|].
    destruct (parse_uint32 C v) as [u|] eqn:E; [|discriminate].
    simpl in Hlen.
    destruct (IH rest' _ _ _ _ _ _ _ _ _ ltac:(lia) H) as [H1 H2].
    split.
    - intros _. apply H1. exact (parse_uint32_range C v u E).
    - intros ->.
      assert (forall m args c p l c' o' p' l' pos,
                 (List.length args <= m)%nat ->
                 parse_options C args c true p l = Options c' o' p' l' pos ->
                 o' = true) as Htrue.
      { clear. induction m as [|m IHm];
          intros args c p l c' o' p' l' pos Hlen H;
          (destruct args as [|a rest];
           [simpl in H; injection H as <- <- <- <- <-; auto|]);
          simpl in Hlen; [lia|].
        simpl in H.
        destruct (String.eqb a "-h" || String.eqb a "--help"); [discriminate|].
        destruct (String.eqb a "--list");
          [eapply (IHm rest); [lia|exact H]|].
        destruct (String.eqb a "--crtc").
        { destruct rest as [|v rest']; [discriminate|].
          destruct (parse_uint32 C v); [|discriminate]. simpl in Hlen.
          eapply (IHm rest'); [lia|exact H]. }
        destruct (String.eqb a "--presets").
        { destruct rest as [|v rest']; [discriminate|]. simpl in Hlen.
          eapply (IHm rest'); [lia|exact H]. }
        destruct (starts_with_dash a); [discriminate|].
        now injection H as <- <- <- <- <-. }
      discriminate (Htrue _ _ _ _ _ _ _ _ _ _ (le_n _) H). }
  destruct (String.eqb a "--presets").
  { destruct rest as [|v rest']; [discriminate|]. simpl in Hlen.
    eapply (IH rest'); [lia|exact H]. }
  destruct (starts_with_dash a); [discriminate|].
  injection H as <- <- <- <- <-. auto.
Qed.


(** ** The hardware stage *)

Lemma commits_app tr1 tr2 :
  commits (tr1 ++ tr2) = (commits tr1 ++ commits tr2)%list.
Proof. unfold commits. apply flat_map_app. Qed.

Lemma no_hardware_commits tr : no_hardware tr -> commits tr = [].
Proof.
  induction 1 as [|e tr He _ IH]; [reflexivity|].
  destruct e; try discriminate He; exact IH.
Qed.

Lemma no_hardware_crtc tr e x :
  no_hardware tr -> In e tr -> hw_crtc e = Some x -> False.
Proof.
  intros H He Hx. unfold no_hardware in H. rewrite Forall_forall in H.
  specialize (H e He). destruct e; discriminate.
Qed.

Lemma no_hardware_open tr : no_hardware tr -> ~ In HwOpen tr.
Proof.
  intros H He. unfold no_hardware in H. rewrite Forall_forall in H.
  discriminate (H _ He).
Qed.

(** What [set_gamma_lut] and the code around it do with the driver. *)
Lemma apply_lut_outcome C d fuel crtc_id p code ev :
  apply_lut C d fuel crtc_id p = Some (code, ev) ->
  In HwOpen ev
  /\ (forall e x, In e ev -> hw_crtc e = Some x -> x = crtc_id)
  /\ ((code = 1 /\ commits ev = [])
      \/ (exists prop size lut,
             drm_props d crtc_id = Some (prop, size)
             /\ prop <> 0 /\ size <> 0
             /\ Lut.gamma_table C p size fuel = Some lut
             /\ commits ev = [(crtc_id, lut)]
             /\ code = (if Z.eqb (drm_commit d crtc_id lut) 0 then 0 else 1))).
Proof.
  assert (forall l : list event,
             (forall e, In e l ->
                        hw_crtc e = None \/ hw_crtc e = Some crtc_id) ->
             forall e x, In e l -> hw_crtc e = Some x -> x = crtc_id) as Hall.
  { intros l Hl e x He Hx. destruct (Hl e He) as [H|H]; congruence. }
  unfold apply_lut, Lut.set_gamma_lut.
  destruct (drm_open d); cbn [negb].
  2:{ intros [= <- <-]. split; [now left|]. split; [|left; now split].
      apply Hall. intros e He. simpl in He.
      repeat (destruct He as [<-|He]; [auto|]). contradiction. }
  destruct (drm_props d crtc_id) as [[prop size]|].
  2:{ intros [= <- <-]. split; [now left|]. split; [|left; now split].
      apply Hall. intros e He. simpl in He.
      repeat (destruct He as [<-|He]; [auto|]). contradiction. }
  destruct (Z.eqb_spec prop 0) as [->|Hprop]; cbn [orb].
  { intros [= <- <-]. split; [now left|]. split; [|left; now split].
    apply Hall. intros e He. simpl in He.
    repeat (destruct He as [<-|He]; [auto|]). contradiction. }
  destruct (Z.eqb_spec size 0) as [->|Hsize].
  { intros [= <- <-]. split; [now left|]. split; [|left; now split].
    apply Hall. intros e He. simpl in He.
    repeat (destruct He as [<-|He]; [auto|]). contradiction. }
  destruct (drm_calloc d); cbn [negb].
  2:{ intros [= <- <-]. split; [now left|]. split; [|left; now split].
      apply Hall. intros e He. simpl in He.
      repeat (destruct He as [<-|He]; [auto|]). contradiction. }
  destruct (Lut.gamma_table C p size fuel) as [lut|] eqn:T; [|discriminate].
  intros [= <- <-]. split; [now left|]. split.
  - apply Hall. intros e He.
    destruct (Z.eqb (drm_commit d crtc_id lut) 0); simpl in He;
      repeat (destruct He as [<-|He]; [auto|]); contradiction.
  - right. exists prop, size, lut. repeat split; auto.
    destruct (Z.eqb (drm_commit d crtc_id lut) 0); reflexivity.
Qed.

Section Branches.

Variable C : libc.

Lemma next_arg_inl f dflt rest ev :
  next_arg C f dflt rest = inl ev -> only_stderr ev.
Proof.
  unfold next_arg. destruct rest as [|a rest]; [discriminate|].
  destruct (parse_double_in_range_cases C (field_label f) a
              (field_min f) (field_max f)) as [(v & -> & _)|(l & ->)];
    [discriminate|].
  intros [= <-]. repeat constructor. eauto.
Qed.

(** The numeric path refuses on [stderr] only. *)
Lemma numeric_args_inl g positional ev :
  numeric_args C g positional = inl ev -> only_stderr ev.
Proof.
  unfold numeric_args.
  destruct (_ || _); [intros [= <-]; repeat constructor; eauto|].
  destruct (_ || _); [intros [= <-]; repeat constructor; eauto|].
  destruct (next_arg C FLift d0 (tl positional)) as [e|[v1 r1]] eqn:E1;
    [intros [= <-]; exact (next_arg_inl _ _ _ _ E1)|].
  destruct (next_arg C FGain d1 r1) as [e|[v2 r2]] eqn:E2;
    [intros [= <-]; exact (next_arg_inl _ _ _ _ E2)|].
  destruct (next_arg C FR d1 r2) as [e|[v3 r3]] eqn:E3;
    [intros [= <-]; exact (next_arg_inl _ _ _ _ E3)|].
  destruct (next_arg C FG d1 r3) as [e|[v4 r4]] eqn:E4;
    [intros [= <-]; exact (next_arg_inl _ _ _ _ E4)|].
  destruct (next_arg C FB d1 r4) as [e|[v5 r5]] eqn:E5;
    [intros [= <-]; exact (next_arg_inl _ _ _ _ E5)|].
  destruct r5; [discriminate|].
  intros [= <-]. repeat constructor. eauto.
Qed.

(** The preset path refuses without touching the driver. *)
Lemma preset_args_inl fs name preset_path c ev :
  preset_args C fs name preset_path c = inl ev -> no_hardware ev.
Proof.
  unfold preset_args.
  assert (only_stderr (snd (load_preset C fs name preset_path))) as Hev.
  { unfold load_preset. destruct (String.eqb name "reset"); [constructor|].
    destruct preset_path as [p|]; [apply load_preset_from_file_events|].
    pose proof (load_preset_from_file_events C fs local_ini name pv_zero) as H1.
    destruct (load_preset_from_file C fs local_ini name pv_zero)
      as [[st1 pv1] ev1].
    destruct (negb (Z.eqb st1 0)); [exact H1|].
    pose proof (load_preset_from_file_events C fs system_ini name pv1) as H2.
    destruct (load_preset_from_file C fs system_ini name pv1)
      as [[st2 pv2] ev2].
    simpl in *. apply Forall_app. now split. }
  destruct (load_preset C fs name preset_path) as [[st pv] ev1].
  simpl in Hev. apply only_stderr_no_hardware in Hev.
  destruct (Z.eqb st 0).
  { intros [= <-]. apply Forall_app. split; [exact Hev|].
    constructor; [reflexivity|apply list_all_presets_no_hardware]. }
  destruct (st <? 0).
  { intros [= <-]. apply Forall_app. split; [exact Hev|repeat constructor]. }
  destruct (negb (have_gamma pv)); [|discriminate].
  intros [= <-]. apply Forall_app. split; [exact Hev|repeat constructor].
Qed.

End Branches.

(** X11. A run ends with 0, 1 or 2.  With 2 the driver was not touched;
    with 1 a card was opened (or the attempt failed); and a run commits
    at most one table, after which it ends with 0 when the driver took it
    and with 1 when it did not. *)
Theorem exit_code_tells_what_happened :
  forall (C : libc) (fs : files) (d : drm) (fuel : nat) (args : list string)
         code tr,
    main C fs d fuel args = Some (code, tr) ->
    (code = 0 \/ code = 1 \/ code = 2)
    /\ (code = 2 -> no_hardware tr)
    /\ (code = 1 -> In HwOpen tr)
    /\ (commits tr = []
        \/ exists c lut,
             commits tr = [(c, lut)]
             /\ code = (if Z.eqb (drm_commit d c lut) 0 then 0 else 1)).
Proof.
  intros C fs d fuel args code tr. unfold main.
  assert (forall c tr', no_hardware tr' -> (c = 0 \/ c = 2) ->
            (c = 0 \/ c = 1 \/ c = 2)
            /\ (c = 2 -> no_hardware tr')
            /\ (c = 1 -> In HwOpen tr')
            /\ (commits tr' = []
                \/ exists c' lut,
                     commits tr' = [(c', lut)]
                     /\ c = (if Z.eqb (drm_commit d c' lut) 0 then 0 else 1)))
    as Hquiet.
  { intros c tr' Hn Hc. split; [tauto|]. split; [auto|]. split; [lia|].
    left. now apply no_hardware_commits. }
  assert (forall ev0 crtc_id p c tr',
             only_stderr ev0 ->
             match apply_lut C d fuel crtc_id p with
             | Some (code, ev) => Some (code, (ev0 ++ ev)%list)
             | None => None
             end = Some (c, tr') ->
            (c = 0 \/ c = 1 \/ c = 2)
            /\ (c = 2 -> no_hardware tr')
            /\ (c = 1 -> In HwOpen tr')
            /\ (commits tr' = []
                \/ exists c' lut,
                     commits tr' = [(c', lut)]
                     /\ c = (if Z.eqb (drm_commit d c' lut) 0 then 0 else 1)))
    as Happly.
  { intros ev0 crtc_id p c tr' Hev0 H.
    destruct (apply_lut C d fuel crtc_id p) as [[c1 ev]|] eqn:E; [|discriminate].
    injection H as <- <-.
    destruct (apply_lut_outcome _ _ _ _ _ _ _ E) as (Hopen & _ & Hc).
    pose proof (no_hardware_commits ev0 (only_stderr_no_hardware ev0 Hev0))
      as Hc0.
    rewrite commits_app, Hc0.
    destruct Hc as [[-> Hc]|(prop & size & lut & _ & _ & _ & _ & Hc & ->)].
    - split; [tauto|]. split; [discriminate|].
      split; [intros _; apply in_or_app; now right|]. left. exact Hc.
    - rewrite Hc. simpl.
      destruct (Z.eqb (drm_commit d crtc_id lut) 0) eqn:R.
      + split; [tauto|]. split; [discriminate|]. split; [discriminate|].
        right. exists crtc_id, lut. now rewrite R.
      + split; [tauto|]. split; [discriminate|].
        split; [intros _; apply in_or_app; now right|].
        right. exists crtc_id, lut. now rewrite R. }
  destruct (parse_options C args DEFAULT_CRTC false None false)
    as [c ev|c0 o path lm pos] eqn:Hopt.
  { intros [= <- <-].
    destruct (parse_options_exit C _ _ _ _ _ _ _ _ (le_n _) Hopt) as [Hc Hev].
    apply Hquiet; [now apply only_stderr_no_hardware|exact Hc]. }
  assert (only_stderr (snd (if o then (0, None, [])
                            else load_config_crtc C fs path))) as Hev0.
  { destruct o; [constructor|apply load_config_crtc_events]. }
  destruct (if o then (0, None, []) else load_config_crtc C fs path)
    as [[st cfg] ev0]. simpl in Hev0.
  pose proof (only_stderr_no_hardware ev0 Hev0) as Hn0.
  destruct (st <? 0); [intros [= <- <-]; apply Hquiet; auto|].
  destruct lm.
  { destruct pos; intros [= <- <-]; apply Hquiet; auto.
    - apply Forall_app. split; [exact Hn0|apply list_all_presets_no_hardware].
    - apply Forall_app. split; [exact Hn0|repeat constructor]. }
  destruct pos as [|a rest].
  { intros [= <- <-]. apply Hquiet; auto.
    apply Forall_app. split; [exact Hn0|repeat constructor]. }
  destruct (parse_double_strict C a) as [g|].
  - destruct (numeric_args C g (a :: rest)) as [ev|p] eqn:E.
    + intros [= <- <-]. apply Hquiet; auto.
      apply Forall_app. split; [exact Hn0|].
      apply only_stderr_no_hardware. exact (numeric_args_inl C _ _ _ E).
    + apply Happly. exact Hev0.
  - destruct (preset_args C fs a path _) as [ev|[crtc_id p]] eqn:E.
    + intros [= <- <-]. apply Hquiet; auto.
      apply Forall_app. split; [exact Hn0|].
      exact (preset_args_inl C _ _ _ _ _ E).
    + apply Happly. exact Hev0.
Qed.

Lemma exit_code_tells_what_happened_witness :
  no_hardware [Err (ErrNotFound "warm"); Out OutNoPresetsIni;
               Out (OutName "reset")].
Proof.
  refine (proj1 (proj2 (exit_code_tells_what_happened ref_libc no_files
                          two_entries 0%nat ["warm"] 2 _ _)) eq_refl).
  vm_compute. reflexivity.
Defined.


(** ** Which CRTC *)

(** X12. Every request a run makes to the driver is about one CRTC, which
    fits 32 bits: the one of the preset when the preset has a [crtc] key
    (it goes before [--crtc]), else the one of [--crtc], else the one of
    the [config] section, else the default 68. *)
Theorem requests_are_about_the_chosen_crtc :
  forall (C : libc) (fs : files) (d : drm) (fuel : nat) (args : list string)
         c0 o path lm positional code tr,
    parse_options C args DEFAULT_CRTC false None false
    = Options c0 o path lm positional ->
    main C fs d fuel args = Some (code, tr) ->
    forall e x,
      In e tr -> hw_crtc e = Some x ->
      x = chosen_crtc (preset_crtc C fs path positional)
                      (if o then Some c0 else None)
                      (snd (fst (load_config_crtc C fs path)))
      /\ is_uint32 x.
Proof.
  intros C fs d fuel args c0 o path lm positional code tr Hopt.
  assert (is_uint32 DEFAULT_CRTC) as Hdef by (unfold is_uint32, DEFAULT_CRTC; lia).
  destruct (parse_options_crtc C _ _ _ _ _ _ _ _ _ _ _ (le_n _) Hopt)
    as [Hc0 Hc0'].
  specialize (Hc0 Hdef).
  unfold main. rewrite Hopt.
  (* the CRTC after the [config] stage *)
  assert (exists st cfg ev0 base,
             (if o then (0, None, []) else load_config_crtc C fs path)
             = (st, cfg, ev0)
             /\ only_stderr ev0
             /\ ((st <? 0) = false ->
                 match cfg with
                 | Some c => if st >? 0 then c else c0
                 | None => c0
                 end = base)
             /\ is_uint32 base
             /\ (forall pc,
                    chosen_crtc pc (if o then Some c0 else None)
                      (snd (fst (load_config_crtc C fs path)))
                    = match pc with Some c => c | None => base end))
    as (st & cfg & ev0 & base & -> & Hev0 & Hbase & Hb32 & Hchosen).
  { destruct o.
    - exists 0, None, [], c0.
      split; [reflexivity|]. split; [constructor|].
      split; [intros _; reflexivity|]. split; [exact Hc0|].
      intros [c|]; reflexivity.
    - specialize (Hc0' eq_refl). subst c0.
      destruct (config_status_tells_what_happened C fs path)
        as [E|[(c & E & Hc)|(t & E)]]; rewrite E.
      + exists 0, None, [], DEFAULT_CRTC.
        split; [reflexivity|]. split; [constructor|].
        split; [intros _; reflexivity|]. split; [exact Hdef|].
        intros [c|]; reflexivity.
      + exists 1, (Some c), [], c.
        split; [reflexivity|]. split; [constructor|].
        split; [intros _; reflexivity|]. split; [exact Hc|].
        intros [c'|]; reflexivity.
      + exists (-1), None, [Err (ErrCrtcConfig t)], DEFAULT_CRTC.
        split; [reflexivity|]. split; [repeat constructor; eauto|].
        split; [discriminate|]. split; [exact Hdef|].
        intros [c'|]; reflexivity. }
  pose proof (only_stderr_no_hardware ev0 Hev0) as Hn0.
  assert (forall tr', no_hardware tr' ->
                      forall e x, In e (ev0 ++ tr') -> hw_crtc e = Some x ->
                                  False) as Hquiet.
  { intros tr' Hn e x He Hx.
    apply (no_hardware_crtc (ev0 ++ tr') e x); auto.
    apply Forall_app. now split. }
  assert (forall crtc_id p pc,
             is_uint32 crtc_id ->
             match pc with Some c => c | None => base end = crtc_id ->
             match apply_lut C d fuel crtc_id p with
             | Some (code, ev) => Some (code, (ev0 ++ ev)%list)
             | None => None
             end = Some (code, tr) ->
             forall e x, In e tr -> hw_crtc e = Some x ->
                         x = chosen_crtc pc (if o then Some c0 else None)
                               (snd (fst (load_config_crtc C fs path)))
                         /\ is_uint32 x) as Happly.
  { intros crtc_id p pc H32 Hpc H e x He Hx.
    destruct (apply_lut C d fuel crtc_id p) as [[c1 ev]|] eqn:E; [|discriminate].
    injection H as <- <-.
    destruct (apply_lut_outcome _ _ _ _ _ _ _ E) as (_ & Hcrtc & _).
    apply in_app_or in He. destruct He as [He|He].
    - elim (no_hardware_crtc ev0 e x Hn0 He Hx).
    - rewrite (Hcrtc e x He Hx), Hchosen, Hpc. auto. }
  destruct (st <? 0) eqn:Hst.
  { intros [= <- <-] e x He Hx. elim (no_hardware_crtc ev0 e x Hn0 He Hx). }
  specialize (Hbase eq_refl). rewrite Hbase.
  destruct lm.
  { destruct positional; intros [= <- <-] e x He Hx; exfalso.
    - eapply Hquiet; [apply list_all_presets_no_hardware|exact He|exact Hx].
    - eapply (Hquiet [Err ErrListPositional]);
        [repeat constructor|exact He|exact Hx]. }
  destruct positional as [|a rest].
  { intros [= <- <-] e x He Hx; exfalso.
    eapply (Hquiet [Err ErrMissingArgs; Err ErrUsage]);
      [repeat constructor|exact He|exact Hx]. }
  unfold preset_crtc.
  destruct (parse_double_strict C a) as [g|].
  - destruct (numeric_args C g (a :: rest)) as [ev|p] eqn:E.
    + intros [= <- <-] e x He Hx; exfalso.
      eapply Hquiet; [|exact He|exact Hx].
      apply only_stderr_no_hardware. exact (numeric_args_inl C _ _ _ E).
    + apply (Happly base p None); auto.
  - destruct (preset_args C fs a path base) as [ev|[crtc_id p]] eqn:E.
    + intros [= <- <-] e x He Hx; exfalso.
      eapply Hquiet; [|exact He|exact Hx].
      exact (preset_args_inl C _ _ _ _ _ E).
    + unfold preset_args in E.
      destruct (load_preset C fs a path) as [[st' pv] ev'] eqn:L.
      destruct (loaded_values_are_in_range C fs a path st' pv ev' L)
        as [_ Hcrtc].
      simpl snd.
      destruct (Z.eqb st' 0); [discriminate|].
      destruct (st' <? 0); [discriminate|].
      destruct (negb (have_gamma pv)); [discriminate|].
      injection E as <- <-.
      destruct (have_crtc pv).
      * apply (Happly (crtc pv) _ (Some (crtc pv))); auto.
      * apply (Happly base _ None); auto.
Qed.

Lemma requests_are_about_the_chosen_crtc_witness :
  exists tr,
    main ref_libc preset_with_crtc two_entries 3 ["--crtc"; "5"; "dim"]
    = Some (0, tr)
    /\ In (HwProps 99) tr
    /\ forall e x, In e tr -> hw_crtc e = Some x -> x = 99.
Proof.
  eexists. split; [vm_compute; reflexivity|].
  split; [right; now left|].
  intros e x He Hx.
  destruct (requests_are_about_the_chosen_crtc ref_libc preset_with_crtc
              two_entries 3%nat ["--crtc"; "5"; "dim"] 5 true None false
              ["dim"] 0 _ eq_refl eq_refl e x He Hx) as [-> _].
  vm_compute. reflexivity.
Defined.

(** ** Arguments that do not count *)

(** X13. On the preset path only the name is read: what follows it on
    the command line changes nothing. *)
Theorem arguments_after_a_preset_name_are_ignored :
  forall (C : libc) (fs : files) (d : drm) (fuel : nat)
         (args args' : list string) c o path name rest,
    parse_options C args DEFAULT_CRTC false None false
    = Options c o path false (name :: rest) ->
    parse_options C args' DEFAULT_CRTC false None false
    = Options c o path false [name] ->
    parse_double_strict C name = None ->
    main C fs d fuel args = main C fs d fuel args'.
Proof.
  intros C fs d fuel args args' c o path name rest H H' Hn.
  unfold main. rewrite H, H'.
  destruct (if o then (0, None, []) else load_config_crtc C fs path)
    as [[st cfg] ev0].
  destruct (st <? 0); [reflexivity|]. now rewrite Hn.
Qed.

Lemma arguments_after_a_preset_name_are_ignored_witness :
  main ref_libc two_warm two_entries 3 ["cool"; "9"; "--list"]
  = main ref_libc two_warm two_entries 3 ["cool"].
Proof.
  apply (arguments_after_a_preset_name_are_ignored ref_libc two_warm
           two_entries 3%nat ["cool"; "9"; "--list"] ["cool"]
           DEFAULT_CRTC false None "cool" ["9"; "--list"]);
    vm_compute; reflexivity.
Defined.

(** X14. More than six arguments on the numeric path are refused with
    code 2 and the line that counts them, before any of their values is
    looked at, the range of [gamma] included. *)
Theorem more_than_six_numbers_are_refused :
  forall (C : libc) (fs : files) (d : drm) (fuel : nat) (args : list string)
         c o path positional a0 rest g st cfg ev0,
    parse_options C args DEFAULT_CRTC false None false
    = Options c o path false positional ->
    (if o then (0, None, []) else load_config_crtc C fs path) = (st, cfg, ev0) ->
    0 <= st ->
    positional = a0 :: rest ->
    parse_double_strict C a0 = Some g ->
    (6 < List.length positional)%nat ->
    main C fs d fuel args
    = Some (2, (ev0 ++ [Err (ErrArity (Z.of_nat (List.length positional)));
                        Err ErrUsage])%list).
Proof.
  intros C fs d fuel args c o path positional a0 rest g st cfg ev0
         Hopt Hcfg Hst Hpos Hg Hlen.
  unfold main. rewrite Hopt, Hcfg.
  destruct (Z.ltb_spec st 0); [lia|].
  rewrite Hpos at 1. rewrite Hg. unfold numeric_args.
  destruct (Z.gtb_spec (Z.of_nat (List.length positional)) 6) as [_|H6]; [|lia].
  rewrite orb_true_r. reflexivity.
Qed.

Lemma more_than_six_numbers_are_refused_witness :
  main ref_libc no_files two_entries 0 ["9"; "1"; "1"; "1"; "1"; "1"; "1"]
  = Some (2, [Err (ErrArity 7); Err ErrUsage]).
Proof.
  apply (more_than_six_numbers_are_refused ref_libc no_files two_entries 0%nat
           ["9"; "1"; "1"; "1"; "1"; "1"; "1"] DEFAULT_CRTC false None
           ["9"; "1"; "1"; "1"; "1"; "1"; "1"] "9" ["1"; "1"; "1"; "1"; "1"; "1"]
           (d_of_Z 9) 0 None []);
    try (vm_compute; reflexivity); try (simpl; lia).
Defined.

(** X15. A name that no resource of the search gives a key for is not
    found: the run prints that line, then the whole listing, and ends
    with code 2 without touching the driver. *)
Theorem unknown_preset_prints_the_listing :
  forall (C : libc) (fs : files) (d : drm) (fuel : nat) (args : list string)
         c o path name rest st cfg ev0,
    parse_options C args DEFAULT_CRTC false None false
    = Options c o path false (name :: rest) ->
    (if o then (0, None, []) else load_config_crtc C fs path) = (st, cfg, ev0) ->
    0 <= st ->
    parse_double_strict C name = None ->
    name <> "reset" ->
    (forall p, In p (search_order path) -> gives_key fs p name = false) ->
    main C fs d fuel args
    = Some (2, (ev0 ++ Err (ErrNotFound name)
                  :: list_all_presets fs path)%list).
Proof.
  intros C fs d fuel args c o path name rest st cfg ev0
         Hopt Hcfg Hst Hname Hreset Hkeys.
  unfold main. rewrite Hopt, Hcfg.
  destruct (Z.ltb_spec st 0); [lia|]. rewrite Hname.
  unfold preset_args. rewrite load_preset_answer by exact Hreset.
  assert (match path with
          | Some p => load_preset_from_file C fs p name pv_zero
          | None =>
              if gives_key fs local_ini name
              then load_preset_from_file C fs local_ini name pv_zero
              else load_preset_from_file C fs system_ini name pv_zero
          end = (0, pv_zero, [])) as ->.
  { destruct path as [p|]; simpl in Hkeys.
    - apply load_preset_from_file_silent. apply Hkeys. now left.
    - rewrite (Hkeys local_ini) by now left.
      apply load_preset_from_file_silent. apply Hkeys. right. now left. }
  reflexivity.
Qed.

Lemma unknown_preset_prints_the_listing_witness :
  main ref_libc two_warm two_entries 0 ["hot"]
  = Some (2, Err (ErrNotFound "hot") :: list_all_presets two_warm None).
Proof.
  apply (unknown_preset_prints_the_listing ref_libc two_warm two_entries 0%nat
           ["hot"] DEFAULT_CRTC false None "hot" [] 1 (Some 70) []).
  - reflexivity.
  - vm_compute. reflexivity.
  - lia.
  - vm_compute. reflexivity.
  - discriminate.
  - intros p [<-|[<-|[]]]; vm_compute; reflexivity.
Defined.

End MainFacts.

(* ================================================================== *)
(** * The loop that fills the table *)
(* ================================================================== *)

Module LutFacts.

Import IEEE IEEEOrder Env Lut Ref Examples.
Local Open Scope Z_scope.

Lemma d1_not_nan : is_nan d1 = false.
Proof. reflexivity. Qed.

Lemma d0_le_d1 : dle d0 d1 = true.
Proof. reflexivity. Qed.

(** ** The clamps *)

(** X16. The two clamps of the loop.  [y] is never below 0 nor above 1
    (a NaN passes through the two tests).  A channel value is always a
    number between 0 and 1: [fmin] and [fmax] drop a NaN, so a product
    that is not a number gives 1. *)
Theorem clamps_keep_the_unit_interval :
  forall (C : libc) (p : params) (lut_size i : Z) (y mult : double),
    (dlt (lut_y C p lut_size i) d0 = false
     /\ dgt (lut_y C p lut_size i) d1 = false)
    /\ (is_nan (channel y mult) = false
        /\ dle d0 (channel y mult) = true
        /\ dle (channel y mult) d1 = true)
    /\ (is_nan (dmul y mult) = true -> channel y mult = d1).
Proof.
  intros C p lut_size i y mult. split; [|split].
  - unfold lut_y.
    set (y0 := dmul _ _).
    destruct (dlt y0 d0) eqn:E0.
    + split; reflexivity.
    + destruct (dgt y0 d1) eqn:E1; [split; reflexivity|]. now split.
  - unfold channel, fmin.
    set (z := dmul y mult).
    destruct (dle d1 z) eqn:E1; cbn [orb].
    { repeat split; reflexivity. }
    destruct (is_nan z) eqn:Ez.
    { repeat split; reflexivity. }
    unfold fmax. change (dge d0 z) with (dle z d0). rewrite Ez.
    destruct (dle z d0) eqn:E0; cbn [orb].
    { repeat split; reflexivity. }
    split; [exact Ez|].
    split; apply dlt_dle, dle_false_dlt; auto.
  - intros Hz. unfold channel, fmin. rewrite Hz, orb_true_r. reflexivity.
Qed.

(** ** One entry *)

Lemma dmul_zero_finite s x :
  is_finite x = true -> exists s', dmul (S754_zero s) x = S754_zero s'.
Proof. destruct x; try discriminate; intros _; simpl; eauto. Qed.

Lemma lut_x_single : lut_x 1 0 = S754_nan.
Proof. vm_compute. reflexivity. Qed.

Lemma channel_zero s mult :
  is_finite mult = true -> channel (S754_zero s) mult = d0.
Proof.
  intros H. destruct (dmul_zero_finite s mult H) as [s' E].
  unfold channel. rewrite E. destruct s'; reflexivity.
Qed.

Lemma quantize_zero : u16clamp (dmul d0 d65535) = Some 0.
Proof. vm_compute. reflexivity. Qed.

(** X17. With a table of one entry the entry is black whatever [gamma]
    and [lift] are: the position 0/0 is not a number, [fmax] replaces
    base by 0, and [pow] gives 0 there (as C has it for a positive
    exponent).  Only [gain] and the multipliers have to be finite. *)
Theorem single_entry_table_is_black :
  forall (C : libc) (p : params) (fuel : nat),
    pow C d0 (gamma_pow p) = d0 ->
    is_finite (gain p) = true ->
    is_finite (r_mult p) = true ->
    is_finite (g_mult p) = true ->
    is_finite (b_mult p) = true ->
    (2 <= fuel)%nat ->
    gamma_table C p 1 fuel = Some [lut_zero].
Proof.
  intros C p fuel Hpow Hgain Hr Hg Hb Hfuel.
  assert (lut_entry C p 1 0 = Some lut_zero) as He.
  { unfold lut_entry.
    assert (exists s, lut_y C p 1 0 = S754_zero s) as [s ->].
    { unfold lut_y.
      assert (fmax d0 (dadd (lut_x 1 0) (lift p)) = d0) as ->.
      { rewrite lut_x_single. destruct (lift p); reflexivity. }
      rewrite Hpow.
      destruct (dmul_zero_finite false (gain p) Hgain) as [s Hs].
      change (S754_zero false) with d0 in Hs. rewrite Hs.
      exists s. destruct s; reflexivity. }
    rewrite !channel_zero by assumption. rewrite quantize_zero. reflexivity. }
  unfold gamma_table.
  destruct fuel as [|[|fuel]]; try lia.
  change (Z.to_nat 1) with 1%nat. cbn [repeat lut_loop].
  change (0 <? 1) with true. cbv iota. rewrite He.
  change ((0 + 1) mod 2 ^ 32) with 1. change (1 <? 1) with false.
  reflexivity.
Qed.

Lemma single_entry_table_is_black_witness :
  gamma_table ref_libc lifted 1 2 = Some [lut_zero].
Proof.
  apply (single_entry_table_is_black ref_libc lifted 2%nat); reflexivity.
Defined.

(** ** The loop *)

Section Loop.

Variable C : libc.
Variable p : params.
Variable lut_size : Z.

(** X18. The counter of the loop has 32 bits, the size 64: with a size of
    2^32 or more the counter wraps before it reaches the size, and the
    loop has no end, however long it runs. *)
Theorem loop_has_no_end_from_2_32 :
  2 ^ 32 <= lut_size ->
  forall fuel, gamma_table C p lut_size fuel = None.
Proof.
  intros Hsize fuel. unfold gamma_table.
  generalize (repeat lut_zero (Z.to_nat lut_size)).
  assert (0 <= 0 < 2 ^ 32) as Hi by lia. revert Hi.
  generalize 0 at 2 3 4. 
  induction fuel as [|fuel IH]; intros i Hi lut; simpl; [reflexivity|].
  destruct (Z.ltb_spec i lut_size); [|lia].
  destruct (lut_entry C p lut_size i); [|reflexivity].
  apply IH. apply Z.mod_pos_bound. lia.
Qed.

Lemma length_store {A} (l : list A) i v : List.length (store l i v) = List.length l.
Proof.
  revert i. induction l as [|a l IH]; intros [|i]; simpl; auto.
Qed.

Lemma nth_store_same {A} (l : list A) i v dflt :
  (i < List.length l)%nat -> nth i (store l i v) dflt = v.
Proof.
  revert i. induction l as [|a l IH]; intros [|i] H; simpl in *; try lia; auto.
  apply IH. lia.
Qed.

Lemma nth_store_other {A} (l : list A) i j v dflt :
  i <> j -> nth j (store l i v) dflt = nth j l dflt.
Proof.
  revert i j. induction l as [|a l IH]; intros [|i] [|j] H; simpl; auto;
    try (now elim H); try (apply IH; congruence).
Qed.

(** The loop from index [i] on: what it leaves when it ends. *)
Lemma lut_loop_result fuel :
  forall i lut lut',
    0 <= i <= lut_size -> lut_size < 2 ^ 32 ->
    List.length lut = Z.to_nat lut_size ->
    lut_loop C p lut_size fuel i lut = Some lut' ->
    List.length lut' = Z.to_nat lut_size
    /\ (forall j, 0 <= j < i ->
                  nth (Z.to_nat j) lut' lut_zero = nth (Z.to_nat j) lut lut_zero)
    /\ (forall j, i <= j < lut_size ->
                  lut_entry C p lut_size j
                  = Some (nth (Z.to_nat j) lut' lut_zero)).
Proof.
  induction fuel as [|fuel IH]; intros i lut lut' Hi Hsize Hlen; simpl;
    [discriminate|].
  destruct (Z.ltb_spec i lut_size) as [Hlt|Hge].
  - destruct (lut_entry C p lut_size i) as [e|] eqn:E; [|discriminate].
    intros H.
    rewrite Z.mod_small in H by lia.
    destruct (IH (i + 1) _ lut' ltac:(lia) Hsize
                 ltac:(rewrite length_store; exact Hlen) H) as (L & Hlow & Hhigh).
    split; [exact L|]. split.
    + intros j Hj. rewrite Hlow by lia.
      apply nth_store_other. lia.
    + intros j Hj. destruct (Z.eq_dec j i) as [->|Hne].
      * rewrite Hlow by lia. rewrite nth_store_same by lia. exact E.
      * apply Hhigh. lia.
  - intros [= <-]. split; [exact Hlen|]. split; [auto|]. intros j Hj. lia.
Qed.

(** The loop runs to its end when the body is defined at each index. *)
Lemma lut_loop_runs fuel :
  forall i lut,
    0 <= i <= lut_size -> lut_size < 2 ^ 32 ->
    (forall j, i <= j < lut_size -> lut_entry C p lut_size j <> None) ->
    (Z.to_nat (lut_size - i) < fuel)%nat ->
    lut_loop C p lut_size fuel i lut <> None.
Proof.
  induction fuel as [|fuel IH]; intros i lut Hi Hsize Hdef Hfuel; simpl; [lia|].
  destruct (Z.ltb_spec i lut_size) as [Hlt|Hge]; [|discriminate].
  destruct (lut_entry C p lut_size i) as [e|] eqn:E.
  - rewrite Z.mod_small by lia. apply IH; try lia.
    intros j Hj. apply Hdef. lia.
  - elim (Hdef i ltac:(lia) E).
Qed.

(** X19. When the loop ends, the table has exactly [lut_size] entries and
    entry [i] is what the body computes at [i], for each index: the
    wrapping counter and the writes by index lose nothing below 2^32. *)
Theorem table_has_one_entry_for_each_index :
  forall fuel lut,
    0 <= lut_size ->
    gamma_table C p lut_size fuel = Some lut ->
    lut_size < 2 ^ 32
    /\ List.length lut = Z.to_nat lut_size
    /\ (forall i, 0 <= i < lut_size ->
                  lut_entry C p lut_size i
                  = Some (nth (Z.to_nat i) lut lut_zero)).
Proof.
  intros fuel lut Hpos H.
  assert (lut_size < 2 ^ 32) as Hsize.
  { destruct (Z.lt_ge_cases lut_size (2 ^ 32)) as [Hlt|Hge]; [exact Hlt|].
    rewrite (loop_has_no_end_from_2_32 Hge) in H. discriminate. }
  split; [exact Hsize|].
  destruct (lut_loop_result fuel 0 _ lut ltac:(lia) Hsize
              ltac:(apply repeat_length) H) as (L & _ & Hhigh).
  split; [exact L|exact Hhigh].
Qed.

End Loop.

Lemma table_has_one_entry_for_each_index_witness :
  List.length [lut_zero] = Z.to_nat 1.
Proof.
  exact (proj1 (proj2 (table_has_one_entry_for_each_index ref_libc lifted 1
                         2%nat [lut_zero] ltac:(lia) eq_refl))).
Defined.

Lemma loop_has_no_end_from_2_32_witness :
  gamma_table ref_libc lifted (2 ^ 32) 5 = None.
Proof.
  apply (loop_has_no_end_from_2_32 ref_libc lifted (2 ^ 32)). lia.
Defined.

End LutFacts.
